(** * rx-event-manager: a shallow embedding of [src/EventManager.ts]

    The event manager is a thin layer over three module-level hashes
    ([observables], [subscriptions], [latestEventData]) and one RxJS
    [Subject] ([eventManagerCore]).  The embedding keeps that shape:

    - JavaScript values are a small tagged union ([jsval]): the
      primitives, plain objects with numeric properties, and functions;
      objects and functions carry an address, because [===] compares
      them by identity;
    - the three hashes are finite maps keyed by property name; the objects
      they point to (observables, latest-value records) live in stores
      indexed by reference, so that aliasing is visible: [observe] returns
      a reference to the cached object and patches that very object, and
      the closure scheduled by [latest] reads the record it captured;
    - the methods are written in a state-and-exception monad, one
      definition per source method, under the source's name;
    - the fragment of RxJS the methods rely on (Subject, filter/map, take,
      distinctUntilChanged, Subscriber, setImmediate) is modelled in
      module [Rx], after RxJS 5, the library the source imports
      ([rxjs/Subject], [rxjs/add/operator/...]).  Listener callbacks are
      opaque: a callback is known by its identity, invoking it appends
      one entry to the [trace], and it returns normally.  A callback that
      throws or that calls back into the manager is outside the model:
      every statement below about what [fire] or the event loop delivers
      is a statement about callbacks that return.

    The three hashes are plain objects ([{}]), so a lookup [hash[name]]
    that finds no property of the hash itself goes on to
    [Object.prototype].  The embedding follows it there: the built-in
    members ([constructor], [toString], [__proto__], ...) are found under
    their names, and so are the two properties the manager itself can
    write to [Object.prototype], [subscribe] (by [observe('__proto__')])
    and [value] (by [fire('__proto__', data)]).  A name under which a
    hash finds such a member that is truthy is called [shadowed]. *)

From Stdlib Require Import ZArith Lia.
From stdpp Require Import gmap strings list fin_maps pretty.

Local Open Scope string_scope.
Local Open Scope list_scope.
Local Open Scope nat_scope.
Local Open Scope stdpp_scope.

(* ===================================================================== *)
(** ** JavaScript values *)
(* ===================================================================== *)

Inductive jsval :=
| VUndefined
| VNull
| VBool (b : bool)
| VNum (n : Z)
| VStr (s : string)
| VObj (addr : nat) (props : list (string * Z))
| VFun (addr : nat) (src : string).

Inductive jstype :=
| TyUndefined | TyObject | TyBoolean | TyNumber | TyString | TyFunction.

Definition jstype_eqb (a b : jstype) : bool :=
  match a, b with
  | TyUndefined, TyUndefined | TyObject, TyObject | TyBoolean, TyBoolean
  | TyNumber, TyNumber | TyString, TyString | TyFunction, TyFunction => true
  | _, _ => false
  end.

(** [typeof value] *)
Definition typeof (value : jsval) : jstype :=
  match value with
  | VUndefined => TyUndefined
  | VNull => TyObject
  | VBool _ => TyBoolean
  | VNum _ => TyNumber
  | VStr _ => TyString
  | VObj _ _ => TyObject
  | VFun _ _ => TyFunction
  end.

(** [value.length], read only where [value] is known to be a string. *)
Definition js_length (value : jsval) : nat :=
  match value with
  | VStr s => String.length s
  | _ => 0
  end.

(** ToBoolean, as applied by [!x], [x || y] and [Boolean(x)]. *)
Definition truthy (value : jsval) : bool :=
  match value with
  | VUndefined | VNull => false
  | VBool b => b
  | VNum n => negb (n =? 0)%Z
  | VStr s => negb (Nat.eqb (String.length s) 0)
  | VObj _ _ | VFun _ _ => true
  end.

(** [x === y]: primitives by value, objects and functions by identity. *)
Definition strict_eq (x y : jsval) : bool :=
  match x, y with
  | VUndefined, VUndefined => true
  | VNull, VNull => true
  | VBool a, VBool b => Bool.eqb a b
  | VNum a, VNum b => (a =? b)%Z
  | VStr a, VStr b => String.eqb a b
  | VObj a _, VObj b _ => Nat.eqb a b
  | VFun a _, VFun b _ => Nat.eqb a b
  | _, _ => false
  end.

(** The property key [hash[value]] reads or writes (ToString).  A number
    is printed in full; JavaScript does so for the integers a double
    holds exactly below [2^53], and prints larger numbers rounded or in
    exponent form (['1e+21']), so the key of a number is the one computed
    here for the numbers [exact_key] accepts. *)
Definition ToPropertyKey (value : jsval) : string :=
  match value with
  | VUndefined => "undefined"
  | VNull => "null"
  | VBool true => "true"
  | VBool false => "false"
  | VNum n => pretty n
  | VStr s => s
  | VObj _ _ => "[object Object]"
  | VFun _ src => src
  end.

Definition exact_key (value : jsval) : Prop :=
  match value with
  | VNum n => (Z.abs n < 2 ^ 53)%Z
  | _ => True
  end.

(** [x || y] *)
Definition js_or (x y : jsval) : jsval := if truthy x then x else y.

(* ===================================================================== *)
(** ** The shared store *)
(* ===================================================================== *)

(** The stage an operator puts between the topic and the final
    subscriber, together with its mutable fields. *)
Inductive operator :=
| OpNone
| OpTake (total count : nat)
| OpDistinct (compare : jsval -> jsval -> jsval) (hasKey : bool) (key : jsval).

(** One subscription chain hanging off [eventManagerCore]: the topic's
    filter ([event === e.event]), an optional operator stage, and the
    final [Subscriber] with its [next] callback.  The subscription handle
    returned to the caller is the position of the chain in [core]. *)
Record subscriber := Subscriber {
  sub_event : string;
  sub_op : operator;
  sub_next : option nat;
  sub_closed : bool
}.

(** An [Observable] object: a topic ([obs_op = OpNone]) or a stream lifted
    from a topic by one operator.  [obs_wrappers] counts how many times the
    object's own [subscribe] property has been replaced by [observe]. *)
Record observable := Observable {
  obs_event : string;
  obs_op : operator;
  obs_wrappers : nat
}.

(** What a hash can find on [Object.prototype] when it has no property of
    its own under a name. *)
Inductive member :=
| ObjectPrototype            (* under [__proto__]: [Object.prototype] itself *)
| Builtin (name : string)    (* [constructor] or a built-in method *)
| Wrapper                    (* under [subscribe]: a closure written by [observe] *)
| Written (data : jsval).    (* under [value]: a payload written by [fire] *)

(** The value of [hash[name]], when it is not [undefined]: a reference to
    an object the manager stored in the hash, or an inherited member. *)
Inductive ref :=
| Stored (addr : nat)
| Inherited (m : member).

Coercion Stored : nat >-> ref.

(** [{ hasValue: true, value: data }] *)
Record latest_record := LatestRecord {
  hasValue : bool;
  value : jsval
}.

(** One invocation of a listener's [next] callback. *)
Record delivery := Delivery {
  d_handle : nat;
  d_callback : nat;
  d_payload : jsval
}.

Record state := State {
  core : list subscriber;                  (* eventManagerCore, in subscription order *)
  heap : list observable;                  (* Observable objects, by reference *)
  observables : gmap string nat;           (* { eventName: eventObservable } *)
  subscriptions : gmap string (list nat);  (* { eventName: [subscription, ...] } *)
  records : list latest_record;            (* latest-value records, by reference *)
  latestEventData : gmap string nat;       (* { eventName: record } *)
  immediates : list (nat * nat);           (* setImmediate queue: (observer, record) *)
  trace : list delivery;                   (* callback invocations so far *)
  proto_subscribe : bool;                  (* Object.prototype.subscribe has been written *)
  proto_value : option jsval               (* Object.prototype.value, once written *)
}.

Definition init : state :=
  State [] [] ∅ ∅ [] ∅ [] [] false None.

Definition set_core (f : list subscriber -> list subscriber) (s : state) : state :=
  State (f (core s)) (heap s) (observables s) (subscriptions s)
        (records s) (latestEventData s) (immediates s) (trace s)
        (proto_subscribe s) (proto_value s).
Definition set_heap (f : list observable -> list observable) (s : state) : state :=
  State (core s) (f (heap s)) (observables s) (subscriptions s)
        (records s) (latestEventData s) (immediates s) (trace s)
        (proto_subscribe s) (proto_value s).
Definition set_observables (f : gmap string nat -> gmap string nat) (s : state) : state :=
  State (core s) (heap s) (f (observables s)) (subscriptions s)
        (records s) (latestEventData s) (immediates s) (trace s)
        (proto_subscribe s) (proto_value s).
Definition set_subscriptions
    (f : gmap string (list nat) -> gmap string (list nat)) (s : state) : state :=
  State (core s) (heap s) (observables s) (f (subscriptions s))
        (records s) (latestEventData s) (immediates s) (trace s)
        (proto_subscribe s) (proto_value s).
Definition set_records (f : list latest_record -> list latest_record) (s : state) : state :=
  State (core s) (heap s) (observables s) (subscriptions s)
        (f (records s)) (latestEventData s) (immediates s) (trace s)
        (proto_subscribe s) (proto_value s).
Definition set_latestEventData (f : gmap string nat -> gmap string nat) (s : state) : state :=
  State (core s) (heap s) (observables s) (subscriptions s)
        (records s) (f (latestEventData s)) (immediates s) (trace s)
        (proto_subscribe s) (proto_value s).
Definition set_immediates (f : list (nat * nat) -> list (nat * nat)) (s : state) : state :=
  State (core s) (heap s) (observables s) (subscriptions s)
        (records s) (latestEventData s) (f (immediates s)) (trace s)
        (proto_subscribe s) (proto_value s).
Definition set_trace (f : list delivery -> list delivery) (s : state) : state :=
  State (core s) (heap s) (observables s) (subscriptions s)
        (records s) (latestEventData s) (immediates s) (f (trace s))
        (proto_subscribe s) (proto_value s).
Definition set_proto_subscribe (f : bool -> bool) (s : state) : state :=
  State (core s) (heap s) (observables s) (subscriptions s)
        (records s) (latestEventData s) (immediates s) (trace s)
        (f (proto_subscribe s)) (proto_value s).
Definition set_proto_value (f : option jsval -> option jsval) (s : state) : state :=
  State (core s) (heap s) (observables s) (subscriptions s)
        (records s) (latestEventData s) (immediates s) (trace s)
        (proto_subscribe s) (f (proto_value s)).

(** The members of [Object.prototype] every plain object inherits, beside
    [__proto__]. *)
Definition builtin_members : list string :=
  ["constructor"; "hasOwnProperty"; "isPrototypeOf"; "propertyIsEnumerable";
   "toLocaleString"; "toString"; "valueOf";
   "__defineGetter__"; "__defineSetter__"; "__lookupGetter__"; "__lookupSetter__"].

(** What [Object.prototype] holds under [key], as far as this module can
    tell: a built-in member, or one of the two properties the manager
    writes when it is handed [Object.prototype] for a topic or a record. *)
Definition inherited (key : string) (s : state) : option member :=
  if String.eqb key "__proto__" then Some ObjectPrototype
  else if bool_decide (key ∈ builtin_members) then Some (Builtin key)
  else if String.eqb key "subscribe"
       then (if proto_subscribe s then Some Wrapper else None)
  else if String.eqb key "value" then Written <$> proto_value s
  else None.

(** [hash[key]] on one of the three hashes: the hash's own property, or
    else the inherited member; [None] stands for [undefined]. *)
Definition get (hash : gmap string nat) (key : string) (s : state) : option ref :=
  match hash !! key with
  | Some addr => Some (Stored addr)
  | None => Inherited <$> inherited key s
  end.

(** ToBoolean of an inherited member: the built-in members and the wrapper
    are objects. *)
Definition member_truthy (m : member) : bool :=
  match m with
  | Written data => truthy data
  | _ => true
  end.

(** A hash without a property [name] of its own finds a truthy value
    under [name]. *)
Definition shadowed (name : string) (s : state) : bool :=
  match inherited name s with
  | Some m => member_truthy m
  | None => false
  end.

(** [observables[name]] is, or will be made, a topic of the manager: the
    name is cached, or nothing truthy is found in its place. *)
Definition yields_topic (name : string) (s : state) : Prop :=
  is_Some (observables s !! name) ∨ shadowed name s = false.

(** [latestEventData[name]] is, or will be made, a record of the manager. *)
Definition yields_record (name : string) (s : state) : Prop :=
  is_Some (latestEventData s !! name) ∨ shadowed name s = false.


(* ===================================================================== *)
(** ** State and exceptions *)
(* ===================================================================== *)

Inductive exn := TypeError (msg : string).

Inductive outcome (A : Type) :=
| Ret (a : A)
| Throw (e : exn).
Arguments Ret {A} a.
Arguments Throw {A} e.

(** A method body: it runs on the store and either returns or throws;
    in both cases the store it leaves behind is part of the result. *)
Definition M (A : Type) : Type := state -> outcome A * state.

Definition ret {A} (a : A) : M A := fun s => (Ret a, s).
Definition throw {A} (e : exn) : M A := fun s => (Throw e, s).
Definition bind {A B} (m : M A) (k : A -> M B) : M B :=
  fun s =>
    match m s with
    | (Ret a, s') => k a s'
    | (Throw e, s') => (Throw e, s')
    end.
Definition gets {A} (f : state -> A) : M A := fun s => (Ret (f s), s).
Definition modify (f : state -> state) : M unit := fun s => (Ret tt, f s).

Notation "'let*' x := m 'in' k" := (bind m (fun x => k))
  (at level 10, x name, m at level 100, k at level 200).
Notation "m ;;; k" := (bind m (fun _ => k))
  (at level 100, k at level 200, right associativity).

(** The store a computation leaves behind, whether it returned or threw. *)
Definition exec {A} (m : M A) (s : state) : state := (m s).2.

(** Running the same statement for each element, left to right
    ([Array.prototype.forEach]). *)
Fixpoint forEach {A} (body : A -> M unit) (l : list A) : M unit :=
  match l with
  | [] => ret tt
  | x :: l' => body x ;;; forEach body l'
  end.

(* ===================================================================== *)
(** ** The RxJS fragment the manager is built on *)
(* ===================================================================== *)

Module Rx.

(** [destination.next(x)] on the final subscriber: the [next] callback,
    when one was given, is invoked with [x]. *)
Definition emit (h : nat) (sub : subscriber) (x : jsval) : list delivery :=
  match sub_next sub with
  | Some cb => [Delivery h cb x]
  | None => []
  end.

Definition with_op (sub : subscriber) (op : operator) (closed : bool) : subscriber :=
  Subscriber (sub_event sub) op (sub_next sub) closed.

(** [_next(x)] of the operator stage.
    - TakeSubscriber: [if (++count <= total) { next(x); if (count === total)
      { complete(); unsubscribe(); } }];
    - DistinctUntilChangedSubscriber: [result = hasKey ? compare(key, x)
      : false; hasKey = true; if (Boolean(result) === false) { key = x;
      next(x); }]. *)
Definition stage_next (h : nat) (sub : subscriber) (x : jsval)
    : subscriber * list delivery :=
  match sub_op sub with
  | OpNone => (sub, emit h sub x)
  | OpTake total count =>
      if (S count <=? total)%nat
      then (with_op sub (OpTake total (S count))
                    (if (S count =? total)%nat then true else sub_closed sub),
            emit h sub x)
      else (with_op sub (OpTake total (S count)) (sub_closed sub), [])
  | OpDistinct compare hasKey key =>
      let result := if hasKey then truthy (compare key x) else false in
      if result
      then (with_op sub (OpDistinct compare true key) (sub_closed sub), [])
      else (with_op sub (OpDistinct compare true x) (sub_closed sub), emit h sub x)
  end.

(** What one chain does with the envelope [{ event: e, data: x }]: a
    closed chain ignores it, the topic's filter drops other events, the
    map projects the data into the operator stage. *)
Definition Subscriber_next (e : string) (x : jsval) (h : nat) (sub : subscriber)
    : subscriber * list delivery :=
  if sub_closed sub then (sub, [])
  else if String.eqb (sub_event sub) e then stage_next h sub x
  else (sub, []).

Fixpoint Subject_next_from (e : string) (x : jsval) (h : nat) (subs : list subscriber)
    : list subscriber * list delivery :=
  match subs with
  | [] => ([], [])
  | sub :: rest =>
      let '(sub', ds) := Subscriber_next e x h sub in
      let '(rest', ds') := Subject_next_from e x (S h) rest in
      (sub' :: rest', ds ++ ds')
  end.

(** [eventManagerCore.next({ event: e, data: x })]: every chain is
    visited once, in subscription order. *)
Definition Subject_next (e : string) (x : jsval) : M unit :=
  fun s =>
    let '(c, ds) := Subject_next_from e x 0 (core s) in
    (Ret tt, set_trace (fun t => t ++ ds) (set_core (fun _ => c) s)).

(** [observer.next(x)] called on a final subscriber directly. *)
Definition Observer_next (h : nat) (x : jsval) : M unit :=
  fun s =>
    match core s !! h with
    | Some sub =>
        if sub_closed sub then (Ret tt, s)
        else (Ret tt, set_trace (fun t => t ++ emit h sub x) s)
    | None => (Ret tt, s)
    end.

Definition close (sub : subscriber) : subscriber :=
  with_op sub (sub_op sub) true.

(** The chains after every handle of [l] has been unsubscribed, one
    occurrence at a time. *)
Definition close_all (l : list nat) (c : list subscriber) : list subscriber :=
  foldl (fun c h => alter close h c) c l.

(** [subscription.unsubscribe()] *)
Definition unsubscribe (h : nat) : M unit :=
  modify (set_core (alter close h)).

(** [Observable.prototype.subscribe]: a new chain is appended to the
    subject's observers and returned as the handle. *)
Definition Observable_subscribe (o : nat) (next : option nat) : M nat :=
  fun s =>
    match heap s !! o with
    | Some ob =>
        (Ret (length (core s)),
         set_core (fun c => c ++ [Subscriber (obs_event ob) (obs_op ob) next false]) s)
    | None => (Throw (TypeError "subscribe is not a function"), s)
    end.

(** [source.lift(operator)]: a new Observable over the same topic.  Its
    [subscribe] is the prototype's; subscribing to it reaches the source
    through [_subscribe], not through the source's own [subscribe]
    property (the FIXME in test/EventManager.spec.js records this:
    operators return a new instance whose [subscribe] is not overwritten,
    so such a subscription is not registered).  An inherited member is
    not an Observable and has no operator methods: calling one on it is a
    TypeError. *)
Definition lift (source : ref) (op : operator) : M nat :=
  fun s =>
    match source with
    | Stored o =>
        match heap s !! o with
        | Some ob =>
            (Ret (length (heap s)),
             set_heap (fun hp => hp ++ [Observable (obs_event ob) op 0]) s)
        | None => (Throw (TypeError "lift is not a function"), s)
        end
    | Inherited _ => (Throw (TypeError "lift is not a function"), s)
    end.

(** [eventManagerCore.filter(e => event === e.event).map(e => e.data)] *)
Definition topic (event : string) : M nat :=
  fun s =>
    (Ret (length (heap s)),
     set_heap (fun hp => hp ++ [Observable event OpNone 0]) s).

Definition take (total : nat) (source : ref) : M nat := lift source (OpTake total 0).

Definition distinctUntilChanged (compare : jsval -> jsval -> jsval) (source : ref)
    : M nat :=
  lift source (OpDistinct compare false VUndefined).

(** [setImmediate(() => observer.next(record.value))] *)
Definition setImmediate (observer record : nat) : M unit :=
  modify (set_immediates (fun q => q ++ [(observer, record)])).

(** The event loop runs the oldest pending immediate.  The closure reads
    [value] from the record object it captured, at the time it runs. *)
Definition run_immediate : M unit :=
  fun s =>
    match immediates s with
    | [] => (Ret tt, s)
    | (observer, record) :: q =>
        let s' := set_immediates (fun _ => q) s in
        match records s !! record with
        | Some r => Observer_next observer (value r) s'
        | None => (Ret tt, s')
        end
    end.

End Rx.

(* ===================================================================== *)
(** ** [src/EventManager.ts] *)
(* ===================================================================== *)

Module EventManager.

Definition _isInvalidString (value : jsval) : bool :=
  negb (jstype_eqb TyString (typeof value)) || Nat.eqb 0 (js_length value).

Definition _isNotFunction (value : jsval) : bool :=
  negb (jstype_eqb TyFunction (typeof value)).

Definition _keySelector (data : jsval) : jsval := data.

Definition _defaultComparer (x y : jsval) : jsval := VBool (strict_eq x y).

(** The function object [_defaultComparer] as a value. *)
Definition _defaultComparer_ref : jsval :=
  VFun 0 "function _defaultComparer(x, y) { return x === y; }".

(** [subscriptions[event].push(subscription)] when the entry is an array,
    [subscriptions[event] = [subscription]] otherwise.  No inherited
    member is an array (a payload is a [jsval], and none of these is),
    so only the hash's own property counts. *)
Definition register (event : string) (subscription : nat)
    (subs : gmap string (list nat)) : gmap string (list nat) :=
  match subs !! event with
  | Some l => <[event := l ++ [subscription]]> subs
  | None => <[event := [subscription]]> subs
  end.

Definition _registerSubscription (event : string) (subscription : nat) : M nat :=
  modify (set_subscriptions (register event subscription)) ;;;
  ret subscription.

(** The [subscribe] property of a topic after [wrappers] calls of
    [observe]: each call captured the property it found as
    [originalSubscribe] and installed
    [(...args) => _registerSubscription(event, originalSubscribe.call(observable, ...args))]. *)
Fixpoint subscribe_wrapped (wrappers : nat) (event : string) (o : nat) (next : option nat)
    : M nat :=
  match wrappers with
  | 0 => Rx.Observable_subscribe o next
  | S w =>
      let* subscription := subscribe_wrapped w event o next in
      _registerSubscription event subscription
  end.

(** The call [observable.subscribe(next, error, complete)].  On an
    inherited member the property [subscribe] is either undefined or a
    wrapper whose innermost [originalSubscribe] is undefined: the call is
    a TypeError, raised before anything is subscribed or registered. *)
Definition subscribe (observable : ref) (next : option nat) : M nat :=
  match observable with
  | Stored o =>
      let* ob := gets (fun s => heap s !! o) in
      match ob with
      | Some ob => subscribe_wrapped (obs_wrappers ob) (obs_event ob) o next
      | None => throw (TypeError "subscribe is not a function")
      end
  | Inherited _ => throw (TypeError "subscribe is not a function")
  end.

Definition add_wrapper (ob : observable) : observable :=
  Observable (obs_event ob) (obs_op ob) (S (obs_wrappers ob)).

(** [observable.subscribe = (...args) => ...].  Written to
    [Object.prototype], the property is inherited by the three hashes
    from then on.  Written to a built-in function, to an earlier wrapper
    or to a payload object it is out of the hashes' sight, and on a
    primitive payload the assignment does nothing (the module is compiled
    to [lib/EventManager.js] without a strict-mode directive). *)
Definition assign_subscribe (observable : ref) : M unit :=
  match observable with
  | Stored o => modify (set_heap (alter add_wrapper o))
  | Inherited ObjectPrototype => modify (set_proto_subscribe (fun _ => true))
  | Inherited _ => ret tt
  end.

Definition observe (event : jsval) : M ref :=
  if _isInvalidString event
  then throw (TypeError "given event is not a valid string")
  else
    let key := ToPropertyKey event in
    let build : M ref :=
      let* o := Rx.topic key in
      modify (set_observables (insert key o)) ;;;
      ret (Stored o) in
    let* found := gets (fun s => get (observables s) key s) in
    let* observable :=
      match found with
      | Some (Stored o) => ret (Stored o)
      | Some (Inherited m) => if member_truthy m then ret (Inherited m) else build
      | None => build
      end in
    assign_subscribe observable ;;;
    ret observable.

Definition on (event : jsval) (next : option nat) : M nat :=
  let* observable := observe event in
  let* subscription := subscribe observable next in
  _registerSubscription (ToPropertyKey event) subscription.

Definition once (event : jsval) (next : option nat) : M nat :=
  let* observable := observe event in
  let* taken := Rx.take 1 observable in
  let* subscription := subscribe taken next in
  _registerSubscription (ToPropertyKey event) subscription.

(** The result is the observable ([inl]) when no [next] is given, the
    subscription ([inr]) otherwise. *)
Definition latest (event : jsval) (next : option nat) : M (ref + nat) :=
  let* observable := observe event in
  match next with
  | None => ret (inl observable)
  | Some _ =>
      let* subscription := subscribe observable next in
      let* latestData :=
        gets (fun s => get (latestEventData s) (ToPropertyKey event) s) in
      (* [true === latestData.hasValue]: no inherited member has a
         property [hasValue] that is [true] (the properties of a payload
         object are numbers) *)
      let* replay := gets (fun s =>
        match latestData with
        | Some (Stored r) =>
            match records s !! r with
            | Some rec => hasValue rec
            | None => false
            end
        | _ => false
        end) in
      match latestData, replay with
      | Some (Stored r), true => Rx.setImmediate subscription r
      | _, _ => ret tt
      end ;;;
      let* h := _registerSubscription (ToPropertyKey event) subscription in
      ret (inr h)
  end.

Definition change (event comparer : jsval) (next : option nat) : M (nat + nat) :=
  let comparer := js_or comparer _defaultComparer_ref in
  if _isNotFunction comparer
  then throw (TypeError "comparer should be a function")
  else
    let* topic := observe event in
    let* observable := Rx.distinctUntilChanged (fun x _ => _keySelector x) topic in
    match next with
    | None => ret (inl observable)
    | Some _ =>
        let* subscription := subscribe observable next in
        let* h := _registerSubscription (ToPropertyKey event) subscription in
        ret (inr h)
    end.

Definition set_value (data : jsval) (rec : latest_record) : latest_record :=
  LatestRecord (hasValue rec) data.

(** [latestEventData[event].value = data].  Written to
    [Object.prototype], the property is inherited by the three hashes
    from then on; written to any other inherited member it is out of
    their sight, or does nothing (see [assign_subscribe]). *)
Definition assign_value (record : ref) (data : jsval) : M unit :=
  match record with
  | Stored r => modify (set_records (alter (set_value data) r))
  | Inherited ObjectPrototype => modify (set_proto_value (fun _ => Some data))
  | Inherited _ => ret tt
  end.

Definition fire (event data : jsval) : M unit :=
  if _isInvalidString event
  then throw (TypeError "given event is not a valid string")
  else
    let key := ToPropertyKey event in
    let create : M ref :=
      let* r := gets (fun s => length (records s)) in
      modify (set_records (fun rs => rs ++ [LatestRecord true VUndefined])) ;;;
      modify (set_latestEventData (insert key r)) ;;;
      ret (Stored r) in
    let* found := gets (fun s => get (latestEventData s) key s) in
    let* record :=
      match found with
      | Some (Stored r) => ret (Stored r)
      | Some (Inherited m) => if member_truthy m then ret (Inherited m) else create
      | None => create
      end in
    assign_value record data ;;;
    Rx.Subject_next key data.

Definition trigger (event data : jsval) : M unit := fire event data.

(** Both tests in [off] come down to the hash's own property: an
    inherited member is not an array, and [delete] removes own properties
    only, so it does nothing where [latestEventData[event]] is an
    inherited member. *)
Definition off (event : jsval) : M unit :=
  let key := ToPropertyKey event in
  let* registered := gets (fun s => subscriptions s !! key) in
  match registered with
  | Some l =>
      forEach Rx.unsubscribe l ;;;
      modify (set_subscriptions (delete key))
  | None => ret tt
  end ;;;
  let* latestData := gets (fun s => latestEventData s !! key) in
  match latestData with
  | Some _ => modify (set_latestEventData (delete key))
  | None => ret tt
  end.

(** [Object.keys(subscriptions).forEach((event) => this.off(event))].  The
    keys are taken once, before the first [off]; [off] of one name leaves
    the entries of the other names alone, so the order of the visit does
    not show in the result. *)
Definition offAll : M unit :=
  let* keys := gets (fun s => (map_to_list (subscriptions s)).*1) in
  forEach (fun event => off (VStr event)) keys.

(** What a client can do between two observations of the store: call a
    method, subscribe to an observable it was handed, cancel a handle it
    holds, or let the event loop run one pending immediate. *)
Inductive call :=
| CallObserve (event : jsval)
| CallSubscribe (observable : ref) (next : option nat)
| CallOn (event : jsval) (next : option nat)
| CallOnce (event : jsval) (next : option nat)
| CallLatest (event : jsval) (next : option nat)
| CallChange (event comparer : jsval) (next : option nat)
| CallFire (event data : jsval)
| CallTrigger (event data : jsval)
| CallOff (event : jsval)
| CallOffAll
| CallUnsubscribe (subscription : nat)
| Tick.

Definition step (s : state) (c : call) : state :=
  match c with
  | CallObserve event => exec (observe event) s
  | CallSubscribe o next => exec (subscribe o next) s
  | CallOn event next => exec (on event next) s
  | CallOnce event next => exec (once event next) s
  | CallLatest event next => exec (latest event next) s
  | CallChange event comparer next => exec (change event comparer next) s
  | CallFire event data => exec (fire event data) s
  | CallTrigger event data => exec (trigger event data) s
  | CallOff event => exec (off event) s
  | CallOffAll => exec offAll s
  | CallUnsubscribe h => exec (Rx.unsubscribe h) s
  | Tick => exec Rx.run_immediate s
  end.

Definition run (s : state) (cs : list call) : state := foldl step s cs.

(** The payloads a handle's callback has been invoked with, oldest first. *)
Definition received (h : nat) (s : state) : list jsval :=
  d_payload <$> filter (fun d => d_handle d = h) (trace s).

(** Whether the operator stage of a chain hands [x] on to the final
    subscriber. *)
Definition forwards (op : operator) (x : jsval) : bool :=
  match op with
  | OpNone => true
  | OpTake total count => S count <=? total
  | OpDistinct compare hasKey key =>
      negb (if hasKey then truthy (compare key x) else false)
  end.


(** The latest-value record [latestEventData[name]] points to. *)
Definition peek (name : string) (s : state) : option latest_record :=
  latestEventData s !! name ≫= fun r => records s !! r.

(** The number of [subscribe] wrappers on the cached topic of [name]
    (none when [name] has never been observed). *)
Definition wrappers_of (name : string) (s : state) : nat :=
  match observables s !! name with
  | Some o =>
      match heap s !! o with
      | Some ob => obs_wrappers ob
      | None => 0
      end
  | None => 0
  end.

(** The replay [latest] schedules for a new observer [h] of [name]: one
    task when a record with [hasValue] is stored, none otherwise. *)
Definition replay_task (name : string) (h : nat) (s : state) : list (nat * nat) :=
  match latestEventData s !! name with
  | Some r =>
      match records s !! r with
      | Some rec => if hasValue rec then [(h, r)] else []
      | None => []
      end
  | None => []
  end.

(** The store after the bookkeeping of [fire], before the broadcast: the
    record of [name] is created if the lookup finds nothing truthy, and
    [value] is overwritten on what the lookup found. *)
Definition recorded (name : string) (data : jsval) (s : state) : state :=
  match latestEventData s !! name with
  | Some r => set_records (alter (set_value data) r) s
  | None =>
      if shadowed name s
      then (if String.eqb name "__proto__"
            then set_proto_value (fun _ => Some data) s
            else s)
      else set_latestEventData (insert name (length (records s)))
             (set_records (fun rs => rs ++ [LatestRecord true data]) s)
  end.

(** The references held by the hashes and queues point into the stores. *)
Record wf (s : state) : Prop := Wf {
  wf_cache : ∀ n o, observables s !! n = Some o →
             ∃ w, heap s !! o = Some (Observable n OpNone w);
  wf_registry : ∀ n l h, subscriptions s !! n = Some l → h ∈ l →
                h < length (core s);
  wf_latest : ∀ n r, latestEventData s !! n = Some r →
              ∃ v, records s !! r = Some (LatestRecord true v);
  wf_immediates : ∀ h r, (h, r) ∈ immediates s → h < length (core s);
  wf_trace : ∀ d, d ∈ trace s → d_handle d < length (core s)
}.

Definition reachable (s : state) : Prop := ∃ cs, s = run init cs.

(** How one call can change the subject's observers, the pending
    immediates and the trace: it subscribes one chain (and may schedule a
    replay for it), or closes some chains, or broadcasts one envelope, or
    runs the oldest immediate, or leaves all three alone. *)
Inductive effect (s s' : state) : Prop :=
| effect_subscribe sub ts :
    core s' = core s ++ [sub] →
    trace s' = trace s →
    immediates s' = immediates s ++ ts →
    (∀ t, t ∈ ts → t.1 = length (core s)) →
    effect s s'
| effect_close l :
    core s' = Rx.close_all l (core s) →
    trace s' = trace s →
    immediates s' = immediates s →
    effect s s'
| effect_broadcast e x :
    core s' = (Rx.Subject_next_from e x 0 (core s)).1 →
    trace s' = trace s ++ (Rx.Subject_next_from e x 0 (core s)).2 →
    immediates s' = immediates s →
    effect s s'
| effect_tick h r q ds :
    immediates s = (h, r) :: q →
    immediates s' = q →
    core s' = core s →
    trace s' = trace s ++ ds →
    (ds = [] ∨ ∃ sub x, core s !! h = Some sub ∧ sub_closed sub = false ∧
                        ds = Rx.emit h sub x) →
    effect s s'
| effect_none :
    core s' = core s →
    trace s' = trace s →
    immediates s' = immediates s →
    effect s s'.

(** The two stages in the life of a [once] subscription [h]: waiting
    (open, nothing taken, nothing received) or done (closed, at most one
    payload received).  No pending immediate is addressed to it. *)
Definition once_inv (h : nat) (s : state) : Prop :=
  (∀ t, t ∈ immediates s → t.1 ≠ h) ∧
  ∃ sub, core s !! h = Some sub ∧
    ((sub_closed sub = false ∧ sub_op sub = OpTake 1 0 ∧ received h s = []) ∨
     (sub_closed sub = true ∧ length (received h s) ≤ 1)).

(** The calls that may delete the latest-value record of [name]: [off] on
    a value whose property key is [name] or is not known exactly, and
    [offAll]. *)
Definition clears (name : string) (c : call) : Prop :=
  match c with
  | CallOff event => exact_key event → ToPropertyKey event = name
  | CallOffAll => True
  | _ => False
  end.

(** What the documentation of [change] describes, for comparison with
    what [change] does: a payload is withheld exactly when the comparer
    judges it equal to the payload before it. *)
Fixpoint collapse (comparer : jsval -> jsval -> bool) (previous : option jsval)
    (payloads : list jsval) : list jsval :=
  match payloads with
  | [] => []
  | x :: rest =>
      match previous with
      | Some p =>
          if comparer p x then collapse comparer (Some x) rest
          else x :: collapse comparer (Some x) rest
      | None => x :: collapse comparer (Some x) rest
      end
  end.

(** [x.v === y.v] on plain objects. *)
Definition same_v (x y : jsval) : bool :=
  match x, y with
  | VObj _ px, VObj _ py =>
      match list_to_map (M := gmap string Z) px !! "v",
            list_to_map (M := gmap string Z) py !! "v" with
      | Some a, Some b => (a =? b)%Z
      | None, None => true
      | _, _ => false
      end
  | _, _ => false
  end.

(** The ways [observe] of a valid name rewrites the store: the cached
    topic gets one more wrapper, or a new topic with its first wrapper is
    created and cached, or, for a shadowed name, nothing changes but
    [Object.prototype], which gets a [subscribe] property when it is
    itself what the lookup found. *)
Inductive observed (name : string) (s : state) : state -> Prop :=
| observed_hit o :
    observables s !! name = Some o ->
    observed name s (set_heap (alter add_wrapper o) s)
| observed_miss :
    observables s !! name = None ->
    shadowed name s = false ->
    observed name s
      (set_observables (insert name (length (heap s)))
         (set_heap (fun hp => hp ++ [Observable name OpNone 1]) s))
| observed_shadowed :
    observables s !! name = None ->
    shadowed name s = true ->
    observed name s
      (if String.eqb name "__proto__"
       then set_proto_subscribe (fun _ => true) s
       else s).

(** A restriction on the names a call may fire on or switch off. *)
Definition permits (ok_fire ok_off : string -> Prop) (c : call) : Prop :=
  match c with
  | CallFire event _ | CallTrigger event _ => ok_fire (ToPropertyKey event)
  | CallOff event => ok_off (ToPropertyKey event)
  | CallOffAll => forall k, ok_off k
  | _ => True
  end.

(** Every cached topic carries at least one [subscribe] wrapper. *)
Definition wrapped (s : state) : Prop :=
  forall n o ob, observables s !! n = Some o -> heap s !! o = Some ob ->
    1 <= obs_wrappers ob.

(** Every handle registered under a name is a chain filtered on that name. *)
Definition registry_sound (s : state) : Prop :=
  forall n l h, subscriptions s !! n = Some l -> h ∈ l ->
    exists sub, core s !! h = Some sub /\ sub_event sub = n.

(** Two names never share a latest-value record. *)
Definition latest_inj (s : state) : Prop :=
  forall n1 n2 r, latestEventData s !! n1 = Some r ->
    latestEventData s !! n2 = Some r -> n1 = n2.

(** The calls that may change the latest-value record of [name]: the ones
    that clear it, and [fire] or [trigger] on a value whose property key
    is [name]. *)
Definition overwrites (name : string) (c : call) : Prop :=
  match c with
  | CallFire event _ | CallTrigger event _ => ToPropertyKey event = name
  | _ => clears name c
  end.

(** What a listener subscribed through [change] is handed of the payloads
    fired on its name: the first one, and from then on a payload exactly
    when the payload handed over last is falsy. *)
Fixpoint handed_over (last : option jsval) (payloads : list jsval) : list jsval :=
  match payloads with
  | [] => []
  | x :: rest =>
      match last with
      | Some k =>
          if truthy k then handed_over last rest
          else x :: handed_over (Some x) rest
      | None => x :: handed_over (Some x) rest
      end
  end.

End EventManager.

(* ===================================================================== *)
(** ** Proofs *)
(* ===================================================================== *)

Import EventManager.

Arguments subscribe : simpl never.

Lemma invalid_string_spec (value : jsval) :
  _isInvalidString value = false ↔ ∃ name, value = VStr name ∧ name ≠ "".
Proof.
  split.
  - destruct value as [| | b | n | name | a p | a src]; try discriminate.
    destruct name; [discriminate|]. intros _. eexists; split; [reflexivity|discriminate].
  - intros (name & -> & Hne). destruct name; [contradiction|reflexivity].
Qed.

Lemma valid_name (name : string) : name ≠ "" → _isInvalidString (VStr name) = false.
Proof. intros. apply invalid_string_spec. eauto. Qed.

Lemma observe_throws event s :
  _isInvalidString event = true →
  observe event s = (Throw (TypeError "given event is not a valid string"), s).
Proof. intros H. unfold observe. rewrite H. reflexivity. Qed.

Lemma on_throws event next s :
  _isInvalidString event = true →
  on event next s = (Throw (TypeError "given event is not a valid string"), s).
Proof. intros H. unfold on, bind. rewrite observe_throws by done. reflexivity. Qed.

Lemma change_throws event comparer next s :
  _isInvalidString event = true →
  ∃ e, change event comparer next s = (Throw e, s).
Proof. intros H. unfold change. destruct (_isNotFunction _); [by eexists|].
 unfold bind. rewrite observe_throws by done. by eexists. Qed.

(** *** Lists and the subject's observers *)

Section Lists.
Context {A : Type}.
Implicit Types (l : list A) (x : A).

Lemma lookup_snoc_last l x : (l ++ [x]) !! length l = Some x.
Proof. by rewrite list_lookup_middle. Qed.

Lemma alter_snoc_last (f : A → A) l x : alter f (length l) (l ++ [x]) = l ++ [f x].
Proof.
  induction l as [|y l IH]; simpl; [done|]. by f_equal.
Qed.

Lemma length_snoc l x : length (l ++ [x]) = S (length l).
Proof. rewrite length_app. simpl. lia. Qed.
End Lists.

Lemma close_all_length l c : length (Rx.close_all l c) = length c.
Proof.
  revert c. induction l as [|h l IH]; intros c; simpl; [done|].
  unfold Rx.close_all in *. simpl. rewrite IH. apply length_alter.
Qed.

Lemma close_all_lookup l c i :
  Rx.close_all l c !! i =
  if decide (i ∈ l) then Rx.close <$> c !! i else c !! i.
Proof.
  revert c. induction l as [|h l IH]; intros c.
  - simpl. destruct (decide (i ∈ [])) as [H|H]; [by apply elem_of_nil in H|done].
  - unfold Rx.close_all in *. simpl. rewrite IH.
    destruct (decide (h = i)) as [->|Hne].
    + rewrite list_lookup_alter_eq.
      rewrite (decide_True (P := i ∈ i :: l)) by apply list_elem_of_here.
      destruct (decide (i ∈ l)); [|done].
      destruct (c !! i) as [[ev op nx cl]|]; reflexivity.
    + rewrite list_lookup_alter_ne by done.
      destruct (decide (i ∈ l)) as [H1|H1]; destruct (decide (i ∈ h :: l)) as [H2|H2]; try done.
      * exfalso. apply H2. by apply list_elem_of_further.
      * exfalso. apply elem_of_cons in H2 as [->|]; done.
Qed.

Lemma forEach_unsubscribe l s :
  forEach Rx.unsubscribe l s = (Ret tt, set_core (Rx.close_all l) s).
Proof.
  revert s. induction l as [|h l IH]; intros s.
  - destruct s; reflexivity.
  - simpl. unfold bind. simpl. rewrite IH. reflexivity.
Qed.

(** Subject_next_from *)
Lemma Subject_next_from_length e x k subs :
  length (Rx.Subject_next_from e x k subs).1 = length subs.
Proof.
  revert k. induction subs as [|sub rest IH]; intros k; simpl; [done|].
  destruct (Rx.Subscriber_next e x k sub) as [sub' ds].
  specialize (IH (S k)). destruct (Rx.Subject_next_from e x (S k) rest) as [rest' ds'].
  simpl in *. by rewrite IH.
Qed.

Lemma Subject_next_from_lookup e x k subs i :
  (Rx.Subject_next_from e x k subs).1 !! i =
  (fun sub => (Rx.Subscriber_next e x (k + i) sub).1) <$> subs !! i.
Proof.
  revert k i. induction subs as [|sub rest IH]; intros k i; simpl; [done|].
  destruct (Rx.Subscriber_next e x k sub) as [sub' ds] eqn:E.
  specialize (IH (S k)). destruct (Rx.Subject_next_from e x (S k) rest) as [rest' ds'].
  destruct i as [|i]; simpl.
  - by rewrite Nat.add_0_r, E.
  - rewrite IH. by replace (S k + i) with (k + S i) by lia.
Qed.

Lemma Subject_next_from_elem e x k subs d :
  d ∈ (Rx.Subject_next_from e x k subs).2 ↔
  ∃ i sub, subs !! i = Some sub ∧ d ∈ (Rx.Subscriber_next e x (k + i) sub).2.
Proof.
  revert k. induction subs as [|sub rest IH]; intros k; simpl.
  - split.
    + intros H. by apply elem_of_nil in H.
    + intros (i & sub & Hi & _). by rewrite lookup_nil in Hi.
  - destruct (Rx.Subscriber_next e x k sub) as [sub' ds] eqn:E.
    specialize (IH (S k)). destruct (Rx.Subject_next_from e x (S k) rest) as [rest' ds'].
    simpl in *. rewrite elem_of_app, IH. split.
    + intros [Hd|(i & sub0 & Hi & Hd)].
      * exists 0, sub. rewrite Nat.add_0_r, E. done.
      * exists (S i), sub0. by replace (k + S i) with (S k + i) by lia.
    + intros ([|i] & sub0 & Hi & Hd); simpl in Hi.
      * left. injection Hi as <-. by rewrite Nat.add_0_r, E in Hd.
      * right. exists i, sub0. by replace (k + S i) with (S (k + i)) in Hd by lia.
Qed.

Lemma Subscriber_next_deliveries e x h sub :
  (Rx.Subscriber_next e x h sub).2 =
  if negb (sub_closed sub) && String.eqb (sub_event sub) e && forwards (sub_op sub) x
  then Rx.emit h sub x else [].
Proof.
  unfold Rx.Subscriber_next, Rx.stage_next, forwards.
  destruct (sub_closed sub); [done|].
  destruct (String.eqb (sub_event sub) e); [|done].
  destruct (sub_op sub) as [|total count|compare hasKey key]; [done| |].
  - by destruct (S count <=? total).
  - by destruct (if hasKey then truthy (compare key x) else false).
Qed.

(** *** The references stay inside the stores *)

Lemma wf_init : wf init.
Proof.
  split; simpl; intros *.
  - by rewrite lookup_empty.
  - by rewrite lookup_empty.
  - by rewrite lookup_empty.
  - by intros ?%elem_of_nil.
  - by intros ?%elem_of_nil.
Qed.

(** Any change of [core] that keeps its length keeps [wf]. *)
Lemma wf_set_core f s :
  wf s → length (core s) ≤ length (f (core s)) → wf (set_core f s).
Proof.
  intros [Hc Hr Hl Hi Ht] Hlen. split; simpl; intros *.
  - apply Hc.
  - intros H1 H2. specialize (Hr _ _ _ H1 H2). lia.
  - apply Hl.
  - intros H1. specialize (Hi _ _ H1). lia.
  - intros H1. specialize (Ht _ H1). lia.
Qed.

Lemma wf_push_sub sub s : wf s → wf (set_core (fun c => c ++ [sub]) s).
Proof. intros H. apply wf_set_core; [done|]. rewrite length_snoc. lia. Qed.

Lemma wf_close_all l s : wf s → wf (set_core (Rx.close_all l) s).
Proof. intros H. apply wf_set_core; [done|]. by rewrite close_all_length. Qed.

Lemma wf_unsubscribe h s : wf s → wf (set_core (alter Rx.close h) s).
Proof. intros H. apply wf_set_core; [done|]. by rewrite length_alter. Qed.

Lemma wf_push_obs ob s : wf s → wf (set_heap (fun hp => hp ++ [ob]) s).
Proof.
  intros [Hc Hr Hl Hi Ht]. split; simpl; try done.
  intros n o H. destruct (Hc _ _ H) as [w Hw]. exists w. by apply lookup_app_l_Some.
Qed.

Lemma wf_wrap o s : wf s → wf (set_heap (alter add_wrapper o) s).
Proof.
  intros [Hc Hr Hl Hi Ht]. split; simpl; try done.
  intros n o' H. destruct (Hc _ _ H) as [w Hw].
  destruct (decide (o = o')) as [->|Hne].
  - exists (S w). by rewrite list_lookup_alter_eq, Hw.
  - exists w. by rewrite list_lookup_alter_ne.
Qed.

Lemma wf_cache_insert key o w s :
  wf s → heap s !! o = Some (Observable key OpNone w) →
  wf (set_observables (insert key o) s).
Proof.
  intros [Hc Hr Hl Hi Ht] Ho. split; simpl; try done.
  intros n o' H. apply lookup_insert_Some in H as [[<- <-]|[_ H]]; eauto.
Qed.

Lemma register_lookup event h subs :
  register event h subs !! event = Some (default [] (subs !! event) ++ [h]).
Proof.
  unfold register. destruct (subs !! event) as [l|]; by rewrite lookup_insert_eq.
Qed.

Lemma register_lookup_ne event h subs n :
  event ≠ n → register event h subs !! n = subs !! n.
Proof.
  intros Hne. unfold register.
  destruct (subs !! event) as [l|]; by rewrite lookup_insert_ne.
Qed.

Lemma wf_register key h s :
  wf s → h < length (core s) → wf (set_subscriptions (register key h) s).
Proof.
  intros [Hc Hr Hl Hi Ht] Hh. split; simpl; try done.
  intros n l h' Hn Hin. destruct (decide (key = n)) as [<-|Hne].
  - rewrite register_lookup in Hn. injection Hn as <-.
    apply elem_of_app in Hin as [Hin|Hin].
    + destruct (subscriptions s !! key) as [l|] eqn:E; simpl in Hin.
      * eauto.
      * by apply elem_of_nil in Hin.
    + apply list_elem_of_singleton in Hin as ->. done.
  - rewrite register_lookup_ne in Hn by done. eauto.
Qed.


Lemma wf_pop_immediate q s :
  wf s → (∀ t, t ∈ q → t ∈ immediates s) → wf (set_immediates (fun _ => q) s).
Proof.
  intros [Hc Hr Hl Hi Ht] Hq. split; simpl; try done.
  intros h r H. apply (Hi h r). by apply Hq.
Qed.

Lemma wf_new_record rec s : wf s → wf (set_records (fun rs => rs ++ [rec]) s).
Proof.
  intros [Hc Hr Hl Hi Ht]. split; simpl; try done.
  intros n r H. destruct (Hl _ _ H) as [v Hv]. exists v. by apply lookup_app_l_Some.
Qed.

Lemma wf_latest_insert key r v s :
  wf s → records s !! r = Some (LatestRecord true v) →
  wf (set_latestEventData (insert key r) s).
Proof.
  intros [Hc Hr Hl Hi Ht] Hrec. split; simpl; try done.
  intros n r' H. apply lookup_insert_Some in H as [[<- <-]|[_ H]]; eauto.
Qed.

Lemma wf_set_value data r s :
  wf s → wf (set_records (alter (set_value data) r) s).
Proof.
  intros [Hc Hr Hl Hi Ht]. split; simpl; try done.
  intros n r' H. destruct (Hl _ _ H) as [v Hv].
  destruct (decide (r = r')) as [->|Hne].
  - exists data. by rewrite list_lookup_alter_eq, Hv.
  - exists v. by rewrite list_lookup_alter_ne.
Qed.

Lemma wf_delete_subscriptions key s :
  wf s → wf (set_subscriptions (delete key) s).
Proof.
  intros [Hc Hr Hl Hi Ht]. split; simpl; try done.
  intros n l h [_ H]%lookup_delete_Some. eauto.
Qed.

Lemma wf_delete_latest key s :
  wf s → wf (set_latestEventData (delete key) s).
Proof.
  intros [Hc Hr Hl Hi Ht]. split; simpl; try done.
  intros n r [_ H]%lookup_delete_Some. eauto.
Qed.

Lemma emit_handle h sub x d : d ∈ Rx.emit h sub x → d_handle d = h.
Proof.
  unfold Rx.emit. destruct (sub_next sub); [|by intros ?%elem_of_nil].
  by intros ->%list_elem_of_singleton.
Qed.

Lemma Subscriber_next_handle e x h sub d :
  d ∈ (Rx.Subscriber_next e x h sub).2 → d_handle d = h.
Proof.
  rewrite Subscriber_next_deliveries.
  destruct (_ && _); [apply emit_handle|by intros ?%elem_of_nil].
Qed.

Lemma wf_append_trace ds s :
  wf s → (∀ d, d ∈ ds → d_handle d < length (core s)) →
  wf (set_trace (fun t => t ++ ds) s).
Proof.
  intros [Hc Hr Hl Hi Ht] Hds. split; simpl; try done.
  intros d [H|H]%elem_of_app; eauto.
Qed.

Lemma Subject_next_eq e x s :
  Rx.Subject_next e x s =
  (Ret tt, set_trace (fun t => t ++ (Rx.Subject_next_from e x 0 (core s)).2)
             (set_core (fun c => (Rx.Subject_next_from e x 0 c).1) s)).
Proof.
  unfold Rx.Subject_next, set_trace, set_core. simpl.
  by destruct (Rx.Subject_next_from e x 0 (core s)).
Qed.

Lemma wf_Subject_next e x s : wf s → wf (Rx.Subject_next e x s).2.
Proof.
  intros H. rewrite Subject_next_eq. simpl.
  apply wf_append_trace.
  - apply wf_set_core; [done|]. by rewrite Subject_next_from_length.
  - intros d (i & sub & Hi & Hd)%Subject_next_from_elem. simpl.
    apply Subscriber_next_handle in Hd. rewrite Subject_next_from_length.
    apply lookup_lt_Some in Hi. simpl in Hd. lia.
Qed.

Lemma wf_Observer_next h x s : wf s → wf (Rx.Observer_next h x s).2.
Proof.
  intros H. unfold Rx.Observer_next.
  destruct (core s !! h) as [sub|] eqn:E; [|done].
  destruct (sub_closed sub); [done|]. simpl.
  apply wf_append_trace; [done|].
  intros d ->%emit_handle. by apply lookup_lt_Some in E.
Qed.

Lemma wf_run_immediate s : wf s → wf (Rx.run_immediate s).2.
Proof.
  intros H. unfold Rx.run_immediate.
  destruct (immediates s) as [|[h r] q] eqn:E; [done|].
  assert (wf (set_immediates (fun _ => q) s)) as H'.
  { apply wf_pop_immediate; [done|]. intros t Ht. rewrite E. by apply list_elem_of_further. }
  destruct (records s !! r); [|done]. by apply wf_Observer_next.
Qed.

(** *** What each method does to the store *)

Lemma subscribe_wrapped_eq w event o next ob s :
  heap s !! o = Some ob →
  subscribe_wrapped w event o next s =
  (Ret (length (core s)),
   set_subscriptions (Nat.iter w (register event (length (core s))))
     (set_core (fun c => c ++ [Subscriber (obs_event ob) (obs_op ob) next false]) s)).
Proof.
  intros Ho. induction w as [|w IH]; simpl.
  - unfold Rx.Observable_subscribe. rewrite Ho. reflexivity.
  - unfold bind. rewrite IH. reflexivity.
Qed.

Lemma subscribe_eq (o : nat) next ob s :
  heap s !! o = Some ob →
  subscribe o next s =
  (Ret (length (core s)),
   set_subscriptions (Nat.iter (obs_wrappers ob) (register (obs_event ob) (length (core s))))
     (set_core (fun c => c ++ [Subscriber (obs_event ob) (obs_op ob) next false]) s)).
Proof.
  intros Ho. unfold subscribe, bind, gets. simpl. rewrite Ho.
  by apply subscribe_wrapped_eq.
Qed.

Lemma subscribe_dangling (o : nat) next s :
  heap s !! o = None →
  subscribe o next s = (Throw (TypeError "subscribe is not a function"), s).
Proof. intros Ho. unfold subscribe, bind, gets. simpl. by rewrite Ho. Qed.

Lemma subscribe_inherited m next s :
  subscribe (Inherited m) next s =
  (Throw (TypeError "subscribe is not a function"), s).
Proof. reflexivity. Qed.

Lemma shadowed_inherited name s :
  shadowed name s = true ↔ ∃ m, inherited name s = Some m ∧ member_truthy m = true.
Proof.
  unfold shadowed. destruct (inherited name s) as [m|].
  - split; [by exists m|]. by intros (m' & [= ->] & H).
  - split; [done|]. by intros (m & ? & _).
Qed.

Lemma inherited_prototype name s :
  inherited name s = Some ObjectPrototype ↔ name = "__proto__".
Proof.
  unfold inherited. destruct (String.eqb_spec name "__proto__") as [->|Hne].
  - done.
  - split; [|done]. destruct (bool_decide _); [done|].
    destruct (String.eqb name "subscribe").
    + by destruct (proto_subscribe s).
    + destruct (String.eqb name "value"); [|done]. by destruct (proto_value s).
Qed.

Lemma assign_subscribe_inherited name m s :
  inherited name s = Some m →
  assign_subscribe (Inherited m) s =
  (Ret tt, if String.eqb name "__proto__"
           then set_proto_subscribe (fun _ => true) s else s).
Proof.
  intros Hm. destruct (String.eqb_spec name "__proto__") as [->|Hne].
  - unfold inherited in Hm. simpl in Hm. by injection Hm as <-.
  - destruct m; try done. apply inherited_prototype in Hm. contradiction.
Qed.

Lemma iter_register_lookup w event h subs :
  Nat.iter (S w) (register event h) subs !! event =
  Some (default [] (subs !! event) ++ replicate (S w) h).
Proof.
  induction w as [|w IH].
  - simpl. by rewrite register_lookup.
  - change (Nat.iter (S (S w)) (register event h) subs)
      with (register event h (Nat.iter (S w) (register event h) subs)).
    rewrite register_lookup, IH. simpl.
    rewrite <- app_assoc. f_equal.
    change (h :: replicate w h) with (replicate (S w) h).
    by rewrite <- replicate_S_end.
Qed.

Lemma iter_register_lookup_ne w event h subs n :
  event ≠ n → Nat.iter w (register event h) subs !! n = subs !! n.
Proof.
  intros Hne. induction w as [|w IH]; simpl; [done|].
  by rewrite register_lookup_ne.
Qed.

Lemma wf_iter_register w key h s :
  wf s → h < length (core s) →
  wf (set_subscriptions (Nat.iter w (register key h)) s).
Proof.
  intros Hwf Hh. induction w as [|w IH].
  - by destruct s.
  - change (set_subscriptions (Nat.iter (S w) (register key h)) s)
      with (set_subscriptions (register key h)
              (set_subscriptions (Nat.iter w (register key h)) s)).
    by apply wf_register.
Qed.

Lemma observe_hit name (o : nat) s :
  name ≠ "" → observables s !! name = Some o →
  observe (VStr name) s = (Ret (Stored o), set_heap (alter add_wrapper o) s).
Proof.
  intros Hne Ho. unfold observe. rewrite valid_name by done.
  unfold bind, gets, modify, ret, get. simpl. rewrite Ho. reflexivity.
Qed.

Lemma observe_miss name s :
  name ≠ "" → observables s !! name = None → shadowed name s = false →
  observe (VStr name) s =
  (Ret (Stored (length (heap s))),
   set_observables (insert name (length (heap s)))
     (set_heap (fun hp => hp ++ [Observable name OpNone 1]) s)).
Proof.
  intros Hne Ho Hsh. unfold observe. rewrite valid_name by done.
  unfold shadowed in Hsh.
  unfold bind, gets, modify, ret, Rx.topic, get. simpl. rewrite Ho.
  destruct (inherited name s) as [m|]; simpl; [rewrite Hsh|].
  all: unfold assign_subscribe, modify, set_heap, set_observables; simpl.
  all: by rewrite alter_snoc_last.
Qed.

(** For a shadowed name that is not cached, [observe] returns the
    inherited member; nothing is built or cached. *)
Lemma observe_shadowed name s :
  name ≠ "" → observables s !! name = None → shadowed name s = true →
  ∃ m, inherited name s = Some m ∧
       observe (VStr name) s =
       (Ret (Inherited m),
        if String.eqb name "__proto__"
        then set_proto_subscribe (fun _ => true) s else s).
Proof.
  intros Hne Ho (m & Hm & Ht)%shadowed_inherited. exists m. split; [done|].
  unfold observe. rewrite valid_name by done.
  unfold bind, gets, ret, get. simpl. rewrite Ho, Hm. simpl. rewrite Ht.
  by rewrite (assign_subscribe_inherited name).
Qed.

Lemma observe_observed name s :
  name ≠ "" → observed name s (exec (observe (VStr name)) s).
Proof.
  intros Hne. unfold exec.
  destruct (observables s !! name) as [o|] eqn:Ho.
  - rewrite (observe_hit _ o) by done. by constructor.
  - destruct (shadowed name s) eqn:Hsh.
    + destruct (observe_shadowed name s Hne Ho Hsh) as (m & _ & ->).
      by apply observed_shadowed.
    + rewrite observe_miss by done. by apply observed_miss.
Qed.

(** [observe] touches nothing but the topic cache and the topic object. *)
Lemma observe_frame event s :
  core (exec (observe event) s) = core s ∧
  subscriptions (exec (observe event) s) = subscriptions s ∧
  records (exec (observe event) s) = records s ∧
  latestEventData (exec (observe event) s) = latestEventData s ∧
  immediates (exec (observe event) s) = immediates s ∧
  trace (exec (observe event) s) = trace s.
Proof.
  destruct (_isInvalidString event) eqn:E.
  - unfold exec. by rewrite observe_throws.
  - apply invalid_string_spec in E as (name & -> & Hne).
    destruct (observe_observed name s Hne) as [o Ho|Ho Hsh|Ho Hsh]; try done.
    by destruct (String.eqb name "__proto__").
Qed.

(** On a well-formed store [observe] of a valid name succeeds; the object
    it returns is the cached topic of that name, with one more wrapper
    around its [subscribe]. *)
Lemma observe_ok name s :
  wf s → name ≠ "" → yields_topic name s →
  ∃ o : nat, observe (VStr name) s = (Ret (Stored o), exec (observe (VStr name)) s) ∧
       observables (exec (observe (VStr name)) s) !! name = Some o ∧
       heap (exec (observe (VStr name)) s) !! o =
         Some (Observable name OpNone (S (wrappers_of name s))) ∧
       wf (exec (observe (VStr name)) s).
Proof.
  intros Hwf Hne Hy. unfold exec, wrappers_of.
  destruct (observables s !! name) as [o|] eqn:Ho.
  - destruct (wf_cache _ Hwf _ _ Ho) as [w Hw].
    rewrite (observe_hit _ o) by done. exists o. simpl.
    rewrite list_lookup_alter_eq, Hw. split_and!; try done.
    by apply wf_wrap.
  - destruct Hy as [[o Hy]|Hsh]; [by rewrite Ho in Hy|].
    rewrite observe_miss by done. exists (length (heap s)). simpl.
    rewrite lookup_insert_eq, lookup_snoc_last. split_and!; try done.
    apply (wf_cache_insert _ _ 1); [by apply wf_push_obs|].
    simpl. apply lookup_snoc_last.
Qed.

(** [observe] of a shadowed name that is not cached returns an inherited
    member and leaves the hashes, the stores and the subject alone. *)
Lemma observe_stray name s :
  name ≠ "" → ¬ yields_topic name s →
  ∃ m, inherited name s = Some m ∧
       observe (VStr name) s = (Ret (Inherited m), exec (observe (VStr name)) s) ∧
       exec (observe (VStr name)) s =
         (if String.eqb name "__proto__"
          then set_proto_subscribe (fun _ => true) s else s).
Proof.
  intros Hne Hy.
  assert (observables s !! name = None) as Ho.
  { destruct (observables s !! name) eqn:E; [|done]. destruct Hy. left. by rewrite E. }
  assert (shadowed name s = true) as Hsh.
  { destruct (shadowed name s) eqn:E; [done|]. destruct Hy. by right. }
  destruct (observe_shadowed name s Hne Ho Hsh) as (m & Hm & Hobs).
  exists m. unfold exec. by rewrite Hobs.
Qed.

#[global] Instance yields_topic_dec name s : Decision (yields_topic name s).
Proof. unfold yields_topic. apply _. Defined.

#[global] Instance yields_record_dec name s : Decision (yields_record name s).
Proof. unfold yields_record. apply _. Defined.

(** On a shadowed name that is not cached the subscribing methods get an
    inherited member from [observe] and throw when they call a method of
    an Observable on it; the store is the one [observe] left. *)
Lemma on_stray name next s :
  name ≠ "" → ¬ yields_topic name s →
  on (VStr name) next s =
  (Throw (TypeError "subscribe is not a function"), exec (observe (VStr name)) s).
Proof.
  intros Hne Hy. destruct (observe_stray name s Hne Hy) as (m & _ & Hobs & _).
  unfold on, bind. by rewrite Hobs.
Qed.

Lemma once_stray name next s :
  name ≠ "" → ¬ yields_topic name s →
  once (VStr name) next s =
  (Throw (TypeError "lift is not a function"), exec (observe (VStr name)) s).
Proof.
  intros Hne Hy. destruct (observe_stray name s Hne Hy) as (m & _ & Hobs & _).
  unfold once, bind. by rewrite Hobs.
Qed.

Lemma latest_stray name cb s :
  name ≠ "" → ¬ yields_topic name s →
  latest (VStr name) (Some cb) s =
  (Throw (TypeError "subscribe is not a function"), exec (observe (VStr name)) s).
Proof.
  intros Hne Hy. destruct (observe_stray name s Hne Hy) as (m & _ & Hobs & _).
  unfold latest, bind. by rewrite Hobs.
Qed.

Lemma latest_observable_stray name s :
  name ≠ "" → ¬ yields_topic name s →
  ∃ m, inherited name s = Some m ∧
       latest (VStr name) None s =
       (Ret (inl (Inherited m)), exec (observe (VStr name)) s).
Proof.
  intros Hne Hy. destruct (observe_stray name s Hne Hy) as (m & Hm & Hobs & _).
  exists m. split; [done|]. unfold latest, bind. by rewrite Hobs.
Qed.

Lemma on_eq name next s :
  wf s → name ≠ "" → yields_topic name s →
  on (VStr name) next s =
  (Ret (length (core s)),
   set_subscriptions
     (Nat.iter (S (S (wrappers_of name s))) (register name (length (core s))))
     (set_core (fun c => c ++ [Subscriber name OpNone next false])
        (exec (observe (VStr name)) s))).
Proof.
  intros Hwf Hne Hy.
  destruct (observe_ok name s Hwf Hne Hy) as (o & Hobs & _ & Hheap & _).
  destruct (observe_frame (VStr name) s) as (Hcore & _).
  unfold on, bind. rewrite Hobs, (subscribe_eq _ _ _ _ Hheap). simpl.
  rewrite Hcore. reflexivity.
Qed.

Lemma once_eq name next s :
  wf s → name ≠ "" → yields_topic name s →
  once (VStr name) next s =
  (Ret (length (core s)),
   set_subscriptions (register name (length (core s)))
     (set_core (fun c => c ++ [Subscriber name (OpTake 1 0) next false])
        (set_heap (fun hp => hp ++ [Observable name (OpTake 1 0) 0])
           (exec (observe (VStr name)) s)))).
Proof.
  intros Hwf Hne Hy.
  destruct (observe_ok name s Hwf Hne Hy) as (o & Hobs & _ & Hheap & _).
  destruct (observe_frame (VStr name) s) as (Hcore & _).
  unfold once, bind. rewrite Hobs.
  unfold Rx.take, Rx.lift. rewrite Hheap. simpl.
  erewrite subscribe_eq by (simpl; apply lookup_snoc_last). simpl.
  rewrite Hcore. reflexivity.
Qed.

Lemma latest_observable_eq name s :
  wf s → name ≠ "" → yields_topic name s →
  ∃ o : nat, latest (VStr name) None s =
               (Ret (inl (Stored o)), exec (observe (VStr name)) s) ∧
       observables (exec (observe (VStr name)) s) !! name = Some o.
Proof.
  intros Hwf Hne Hy.
  destruct (observe_ok name s Hwf Hne Hy) as (o & Hobs & Hcache & _).
  exists o. split; [|done]. unfold latest, bind. by rewrite Hobs.
Qed.

Lemma latest_eq name cb s :
  wf s → name ≠ "" → yields_topic name s →
  latest (VStr name) (Some cb) s =
  (Ret (inr (length (core s))),
   set_subscriptions
     (Nat.iter (S (S (wrappers_of name s))) (register name (length (core s))))
     (set_immediates (fun q => q ++ replay_task name (length (core s)) s)
        (set_core (fun c => c ++ [Subscriber name OpNone (Some cb) false])
           (exec (observe (VStr name)) s)))).
Proof.
  intros Hwf Hne Hy.
  destruct (observe_ok name s Hwf Hne Hy) as (o & Hobs & _ & Hheap & _).
  destruct (observe_frame (VStr name) s) as (Hcore & Hsubs & Hrec & Hlat & Himm & Htr).
  unfold latest, bind. rewrite Hobs, (subscribe_eq _ _ _ _ Hheap). simpl.
  unfold gets, replay_task, get. simpl. rewrite Hlat, Hrec, Hcore.
  destruct (latestEventData s !! name) as [r|]; simpl.
  - destruct (records s !! r) as [rec|]; simpl.
    + destruct (hasValue rec); simpl; [reflexivity|].
      unfold set_subscriptions, set_immediates, set_core. simpl.
      by rewrite app_nil_r.
    + unfold set_subscriptions, set_immediates, set_core. simpl.
      by rewrite app_nil_r.
  - destruct (inherited name _); simpl;
      unfold set_subscriptions, set_immediates, set_core; simpl;
      by rewrite app_nil_r.
Qed.

Lemma callable_or_default comparer :
  _isNotFunction (js_or comparer _defaultComparer_ref) =
  truthy comparer && _isNotFunction comparer.
Proof. by destruct comparer as [| |[]|n|[]|a p|a src]; try destruct n. Qed.

Lemma change_observable_eq name comparer s :
  wf s → name ≠ "" → yields_topic name s →
  truthy comparer && _isNotFunction comparer = false →
  ∃ o, change (VStr name) comparer None s =
       (Ret (inl o),
        set_heap (fun hp => hp ++ [Observable name
                    (OpDistinct (fun x _ => _keySelector x) false VUndefined) 0])
          (exec (observe (VStr name)) s)) ∧
       o = length (heap (exec (observe (VStr name)) s)).
Proof.
  intros Hwf Hne Hy Hcmp.
  destruct (observe_ok name s Hwf Hne Hy) as (o & Hobs & _ & Hheap & _).
  unfold change. rewrite callable_or_default, Hcmp.
  unfold bind. rewrite Hobs.
  unfold Rx.distinctUntilChanged, Rx.lift. rewrite Hheap. simpl.
  eexists. split; reflexivity.
Qed.

Lemma change_eq name comparer cb s :
  wf s → name ≠ "" → yields_topic name s →
  truthy comparer && _isNotFunction comparer = false →
  change (VStr name) comparer (Some cb) s =
  (Ret (inr (length (core s))),
   set_subscriptions (register name (length (core s)))
     (set_core (fun c => c ++ [Subscriber name
                  (OpDistinct (fun x _ => _keySelector x) false VUndefined) (Some cb) false])
        (set_heap (fun hp => hp ++ [Observable name
                     (OpDistinct (fun x _ => _keySelector x) false VUndefined) 0])
           (exec (observe (VStr name)) s)))).
Proof.
  intros Hwf Hne Hy Hcmp.
  destruct (observe_ok name s Hwf Hne Hy) as (o & Hobs & _ & Hheap & _).
  destruct (observe_frame (VStr name) s) as (Hcore & _).
  unfold change. rewrite callable_or_default, Hcmp.
  unfold bind. rewrite Hobs.
  unfold Rx.distinctUntilChanged, Rx.lift. rewrite Hheap. simpl.
  erewrite subscribe_eq by (simpl; apply lookup_snoc_last). simpl.
  rewrite Hcore. reflexivity.
Qed.

Lemma change_stray name comparer next s :
  name ≠ "" → ¬ yields_topic name s →
  truthy comparer && _isNotFunction comparer = false →
  change (VStr name) comparer next s =
  (Throw (TypeError "lift is not a function"), exec (observe (VStr name)) s).
Proof.
  intros Hne Hy Hcmp. destruct (observe_stray name s Hne Hy) as (m & _ & Hobs & _).
  unfold change. rewrite callable_or_default, Hcmp.
  unfold bind. by rewrite Hobs.
Qed.

Lemma change_bad_comparer event comparer next s :
  truthy comparer && _isNotFunction comparer = true →
  change event comparer next s =
  (Throw (TypeError "comparer should be a function"), s).
Proof. intros H. unfold change. by rewrite callable_or_default, H. Qed.

Lemma fire_throws event data s :
  _isInvalidString event = true →
  fire event data s = (Throw (TypeError "given event is not a valid string"), s).
Proof. intros H. unfold fire. by rewrite H. Qed.

Lemma assign_value_inherited name m data s :
  inherited name s = Some m →
  assign_value (Inherited m) data s =
  (Ret tt, if String.eqb name "__proto__"
           then set_proto_value (fun _ => Some data) s else s).
Proof.
  intros Hm. destruct (String.eqb_spec name "__proto__") as [->|Hne].
  - unfold inherited in Hm. simpl in Hm. by injection Hm as <-.
  - destruct m; try done. apply inherited_prototype in Hm. contradiction.
Qed.

Lemma fire_eq name data s :
  name ≠ "" →
  fire (VStr name) data s = Rx.Subject_next name data (recorded name data s).
Proof.
  intros Hne. unfold fire. rewrite valid_name by done.
  unfold bind, gets, modify, ret, recorded, get, shadowed. simpl.
  destruct (latestEventData s !! name) as [r|]; simpl; [reflexivity|].
  assert (∀ s0 : state,
    Rx.Subject_next name data
      (set_records (alter (set_value data) (length (records s0)))
         (set_latestEventData <[name:=length (records s0)]>
            (set_records (λ rs, rs ++ [LatestRecord true VUndefined]) s0))) =
    Rx.Subject_next name data
      (set_latestEventData <[name:=length (records s0)]>
         (set_records (λ rs, rs ++ [LatestRecord true data]) s0))) as Hcreate.
  { intros s0. f_equal. unfold set_records, set_latestEventData. simpl.
    by rewrite alter_snoc_last. }
  destruct (inherited name s) as [m|] eqn:Hm; simpl; [|apply Hcreate].
  destruct (member_truthy m) eqn:Ht; [|apply Hcreate].
  by rewrite (assign_value_inherited name).
Qed.

Lemma wf_proto_subscribe f s : wf s → wf (set_proto_subscribe f s).
Proof. by intros []. Qed.

Lemma wf_proto_value f s : wf s → wf (set_proto_value f s).
Proof. by intros []. Qed.

Lemma wf_recorded name data s : wf s → wf (recorded name data s).
Proof.
  intros Hwf. unfold recorded.
  destruct (latestEventData s !! name) as [r|]; [by apply wf_set_value|].
  destruct (shadowed name s).
  - destruct (String.eqb name "__proto__"); [by apply wf_proto_value|done].
  - apply (wf_latest_insert _ _ data); [by apply wf_new_record|].
    simpl. apply lookup_snoc_last.
Qed.

Lemma recorded_frame name data s :
  core (recorded name data s) = core s ∧
  trace (recorded name data s) = trace s ∧
  immediates (recorded name data s) = immediates s ∧
  subscriptions (recorded name data s) = subscriptions s.
Proof.
  unfold recorded. destruct (latestEventData s !! name); [done|].
  destruct (shadowed name s); [|done]. by destruct (String.eqb name "__proto__").
Qed.

(** The record of [name] right after the bookkeeping of [fire]. *)
Lemma peek_recorded name data s :
  wf s → yields_record name s →
  peek name (recorded name data s) = Some (LatestRecord true data).
Proof.
  intros Hwf Hy. unfold peek, recorded.
  destruct (latestEventData s !! name) as [r|] eqn:E; simpl.
  - rewrite E. simpl. destruct (wf_latest _ Hwf _ _ E) as [v Hv].
    by rewrite list_lookup_alter_eq, Hv.
  - destruct Hy as [[r Hy]|Hsh]; [by rewrite E in Hy|]. rewrite Hsh. simpl.
    rewrite lookup_insert_eq. simpl. apply lookup_snoc_last.
Qed.

(** For a shadowed name without a record of its own, the bookkeeping of
    [fire] stores nothing in [latestEventData]. *)
Lemma recorded_shadowed name data s :
  ¬ yields_record name s →
  recorded name data s =
  (if String.eqb name "__proto__" then set_proto_value (fun _ => Some data) s else s).
Proof.
  intros Hy. unfold recorded.
  destruct (latestEventData s !! name) eqn:E.
  - destruct Hy. left. by rewrite E.
  - destruct (shadowed name s) eqn:Hsh; [done|]. destruct Hy. by right.
Qed.

Lemma off_eq event s :
  off event s =
  (Ret tt,
   set_latestEventData (delete (ToPropertyKey event))
     (set_subscriptions (delete (ToPropertyKey event))
        (set_core (Rx.close_all (default [] (subscriptions s !! ToPropertyKey event))) s))).
Proof.
  unfold off, bind, gets, modify, ret. simpl.
  destruct (subscriptions s !! ToPropertyKey event) as [l|] eqn:Hs; simpl.
  - rewrite forEach_unsubscribe. simpl.
    destruct (latestEventData s !! ToPropertyKey event) eqn:Hl; simpl.
    + reflexivity.
    + unfold set_latestEventData, set_subscriptions, set_core. simpl.
      by rewrite (delete_id (latestEventData s)).
  - unfold set_latestEventData, set_subscriptions, set_core. simpl.
    destruct (latestEventData s !! ToPropertyKey event) eqn:Hl; simpl.
    + by rewrite (delete_id (subscriptions s)).
    + rewrite (delete_id (subscriptions s)), (delete_id (latestEventData s)) by done.
      by destruct s.
Qed.

Lemma wf_off event s : wf s → wf (exec (off event) s).
Proof.
  intros Hwf. unfold exec. rewrite off_eq. simpl.
  apply wf_delete_latest, wf_delete_subscriptions. by apply wf_close_all.
Qed.


Lemma wf_forEach_off keys s :
  wf s → wf (exec (forEach (fun event => off (VStr event)) keys) s).
Proof.
  revert s. induction keys as [|k keys IH]; intros s Hwf; simpl; [done|].
  unfold exec, bind. pose proof (wf_off (VStr k) s Hwf) as H.
  unfold exec in H. destruct (off (VStr k) s) as [[[]|e] s'] eqn:E.
  - by apply IH.
  - by rewrite off_eq in E.
Qed.

Lemma wf_offAll s : wf s → wf (exec offAll s).
Proof. intros Hwf. unfold offAll, exec, bind, gets. simpl. by apply wf_forEach_off. Qed.

Lemma once_throws event next s :
  _isInvalidString event = true →
  once event next s = (Throw (TypeError "given event is not a valid string"), s).
Proof. intros H. unfold once, bind. by rewrite observe_throws. Qed.

Lemma latest_throws event next s :
  _isInvalidString event = true →
  latest event next s = (Throw (TypeError "given event is not a valid string"), s).
Proof. intros H. unfold latest, bind. by rewrite observe_throws. Qed.

(** *** Every call keeps the store well formed *)

Lemma wf_observe event s : wf s → wf (exec (observe event) s).
Proof.
  intros Hwf. destruct (_isInvalidString event) eqn:E.
  - unfold exec. by rewrite observe_throws.
  - apply invalid_string_spec in E as (name & -> & Hne).
    destruct (decide (yields_topic name s)) as [Hy|Hy].
    + by destruct (observe_ok name s Hwf Hne Hy) as (o & _ & _ & _ & H).
    + destruct (observe_stray name s Hne Hy) as (m & _ & _ & ->).
      destruct (String.eqb name "__proto__"); [by apply wf_proto_subscribe|done].
Qed.

Lemma wf_subscribed key w sub s :
  wf s →
  wf (set_subscriptions (Nat.iter w (register key (length (core s))))
        (set_core (fun c => c ++ [sub]) s)).
Proof.
  intros Hwf. apply wf_iter_register; [by apply wf_push_sub|].
  simpl. rewrite length_snoc. lia.
Qed.

Lemma wf_subscribe o next s : wf s → wf (exec (subscribe o next) s).
Proof.
  intros Hwf. unfold exec. destruct o as [o|m]; [|done].
  destruct (heap s !! o) as [ob|] eqn:Ho.
  - rewrite (subscribe_eq _ _ ob) by done. by apply wf_subscribed.
  - by rewrite subscribe_dangling.
Qed.

Lemma wf_on event next s : wf s → wf (exec (on event next) s).
Proof.
  intros Hwf. unfold exec. destruct (_isInvalidString event) eqn:E.
  - by rewrite on_throws.
  - apply invalid_string_spec in E as (name & -> & Hne).
    destruct (decide (yields_topic name s)) as [Hy|Hy];
      [|rewrite on_stray by done; by apply wf_observe].
    rewrite on_eq by done. simpl.
    destruct (observe_frame (VStr name) s) as (Hcore & _). rewrite <- Hcore.
    apply wf_subscribed. by apply wf_observe.
Qed.

Lemma wf_once event next s : wf s → wf (exec (once event next) s).
Proof.
  intros Hwf. unfold exec. destruct (_isInvalidString event) eqn:E.
  - by rewrite once_throws.
  - apply invalid_string_spec in E as (name & -> & Hne).
    destruct (decide (yields_topic name s)) as [Hy|Hy];
      [|rewrite once_stray by done; by apply wf_observe].
    rewrite once_eq by done. simpl.
    destruct (observe_frame (VStr name) s) as (Hcore & _). rewrite <- Hcore.
    apply (wf_subscribed name 1 _
             (set_heap (fun hp => hp ++ [Observable name (OpTake 1 0) 0])
                (exec (observe (VStr name)) s))).
    apply wf_push_obs. by apply wf_observe.
Qed.

Lemma replay_task_handle name h s t : t ∈ replay_task name h s → t.1 = h.
Proof.
  unfold replay_task.
  destruct (latestEventData s !! name) as [r|]; [|by intros ?%elem_of_nil].
  destruct (records s !! r) as [rec|]; [|by intros ?%elem_of_nil].
  destruct (hasValue rec); [|by intros ?%elem_of_nil].
  by intros ->%list_elem_of_singleton.
Qed.

Lemma wf_schedule ts s :
  wf s → (∀ t, t ∈ ts → t.1 < length (core s)) →
  wf (set_immediates (fun q => q ++ ts) s).
Proof.
  intros [Hc Hr Hl Hi Ht] Hts. split; simpl; try done.
  intros h r [H|H]%elem_of_app; [eauto|]. apply (Hts _ H).
Qed.

Lemma wf_latest_call event next s : wf s → wf (exec (latest event next) s).
Proof.
  intros Hwf. unfold exec. destruct (_isInvalidString event) eqn:E.
  - by rewrite latest_throws.
  - apply invalid_string_spec in E as (name & -> & Hne).
    destruct (decide (yields_topic name s)) as [Hy|Hy]; cycle 1.
    { destruct next as [cb|].
      - rewrite latest_stray by done. by apply wf_observe.
      - destruct (latest_observable_stray name s Hne Hy) as (m & _ & ->).
        by apply wf_observe. }
    destruct next as [cb|].
    + rewrite latest_eq by done. simpl.
      destruct (observe_frame (VStr name) s) as (Hcore & _).
      apply wf_iter_register; simpl; [|rewrite length_snoc, Hcore; lia].
      apply wf_schedule; [apply wf_push_sub; by apply wf_observe|].
      intros t ->%replay_task_handle. simpl. rewrite length_snoc, Hcore. lia.
    + destruct (latest_observable_eq name s Hwf Hne Hy) as (o & -> & _).
      by apply wf_observe.
Qed.

Lemma wf_change event comparer next s :
  wf s → wf (exec (change event comparer next) s).
Proof.
  intros Hwf. unfold exec.
  destruct (truthy comparer && _isNotFunction comparer) eqn:Hcmp.
  { by rewrite change_bad_comparer. }
  destruct (_isInvalidString event) eqn:E.
  { by destruct (change_throws event comparer next s E) as [e ->]. }
  apply invalid_string_spec in E as (name & -> & Hne).
  destruct (decide (yields_topic name s)) as [Hy|Hy];
    [|rewrite change_stray by done; by apply wf_observe].
  destruct next as [cb|].
  - rewrite change_eq by done. simpl.
    destruct (observe_frame (VStr name) s) as (Hcore & _). rewrite <- Hcore.
    apply (wf_subscribed name 1 _
             (set_heap (fun hp => hp ++ [Observable name
                 (OpDistinct (fun x _ => _keySelector x) false VUndefined) 0])
                (exec (observe (VStr name)) s))).
    apply wf_push_obs. by apply wf_observe.
  - destruct (change_observable_eq name comparer s Hwf Hne Hy Hcmp) as (o & -> & _).
    simpl. apply wf_push_obs. by apply wf_observe.
Qed.

Lemma wf_fire event data s : wf s → wf (exec (fire event data) s).
Proof.
  intros Hwf. unfold exec. destruct (_isInvalidString event) eqn:E.
  - by rewrite fire_throws.
  - apply invalid_string_spec in E as (name & -> & Hne).
    rewrite fire_eq by done. by apply wf_Subject_next, wf_recorded.
Qed.

Lemma wf_step s c : wf s → wf (step s c).
Proof.
  intros Hwf. destruct c; simpl.
  - by apply wf_observe.
  - by apply wf_subscribe.
  - by apply wf_on.
  - by apply wf_once.
  - by apply wf_latest_call.
  - by apply wf_change.
  - by apply wf_fire.
  - by apply wf_fire.
  - by apply wf_off.
  - by apply wf_offAll.
  - by apply wf_unsubscribe.
  - by apply wf_run_immediate.
Qed.

Lemma wf_run cs s : wf s → wf (run s cs).
Proof.
  revert s. induction cs as [|c cs IH]; intros s Hwf; simpl; [done|].
  by apply IH, wf_step.
Qed.

Lemma reachable_wf s : reachable s → wf s.
Proof. intros [cs ->]. apply wf_run, wf_init. Qed.

(** *** The effect of one call on observers, immediates and trace *)

Lemma close_all_app l1 l2 c :
  Rx.close_all (l1 ++ l2) c = Rx.close_all l2 (Rx.close_all l1 c).
Proof. apply foldl_app. Qed.

Lemma forEach_off_effect keys s :
  ∃ l, core (exec (forEach (fun event => off (VStr event)) keys) s)
         = Rx.close_all l (core s) ∧
       trace (exec (forEach (fun event => off (VStr event)) keys) s) = trace s ∧
       immediates (exec (forEach (fun event => off (VStr event)) keys) s)
         = immediates s.
Proof.
  revert s. induction keys as [|k keys IH]; intros s.
  - by exists [].
  - unfold exec. simpl. unfold bind. rewrite off_eq.
    match goal with |- context [forEach _ keys ?s1] =>
      destruct (IH s1) as (l & Hc & Ht & Hi) end.
    unfold exec in *. rewrite Hc, Ht, Hi. simpl.
    eexists. split; [|done]. symmetry. apply close_all_app.
Qed.

Lemma step_effect s c : wf s → effect s (step s c).
Proof.
  intros Hwf. destruct c as [event|o next|event next|event next|event next
    |event comparer next|event data|event data|event| |h|]; simpl; unfold exec.
  - destruct (observe_frame event s) as (Hc & _ & _ & _ & Hi & Ht).
    by apply effect_none.
  - destruct o as [o|m]; [|by apply effect_none].
    destruct (heap s !! o) as [ob|] eqn:Ho.
    + rewrite (subscribe_eq _ _ ob) by done. simpl.
      eapply (effect_subscribe _ _ _ []); simpl; try done.
      * by rewrite app_nil_r.
      * by intros t ?%elem_of_nil.
    + rewrite subscribe_dangling by done. by apply effect_none.
  - destruct (_isInvalidString event) eqn:E.
    { rewrite on_throws by done. by apply effect_none. }
    apply invalid_string_spec in E as (name & -> & Hne).
    destruct (observe_frame (VStr name) s) as (Hc & _ & _ & _ & Hi & Ht).
    destruct (decide (yields_topic name s)) as [Hy|Hy];
      [|rewrite on_stray by done; by apply effect_none].
    rewrite on_eq by done.
    eapply (effect_subscribe _ _ _ []); simpl; rewrite ?Hc, ?Hi, ?Ht; try done.
    + by rewrite app_nil_r.
    + by intros t ?%elem_of_nil.
  - destruct (_isInvalidString event) eqn:E.
    { rewrite once_throws by done. by apply effect_none. }
    apply invalid_string_spec in E as (name & -> & Hne).
    destruct (observe_frame (VStr name) s) as (Hc & _ & _ & _ & Hi & Ht).
    destruct (decide (yields_topic name s)) as [Hy|Hy];
      [|rewrite once_stray by done; by apply effect_none].
    rewrite once_eq by done.
    eapply (effect_subscribe _ _ _ []); simpl; rewrite ?Hc, ?Hi, ?Ht; try done.
    + by rewrite app_nil_r.
    + by intros t ?%elem_of_nil.
  - destruct (_isInvalidString event) eqn:E.
    { rewrite latest_throws by done. by apply effect_none. }
    apply invalid_string_spec in E as (name & -> & Hne).
    destruct (observe_frame (VStr name) s) as (Hc & _ & _ & _ & Hi & Ht).
    destruct (decide (yields_topic name s)) as [Hy|Hy]; cycle 1.
    { destruct next as [cb|].
      - rewrite latest_stray by done. by apply effect_none.
      - destruct (latest_observable_stray name s Hne Hy) as (m & _ & ->).
        by apply effect_none. }
    destruct next as [cb|].
    + rewrite latest_eq by done.
      eapply effect_subscribe; simpl; rewrite ?Hc, ?Hi, ?Ht; try done.
      apply replay_task_handle.
    + destruct (latest_observable_eq name s Hwf Hne Hy) as (o & -> & _).
      by apply effect_none.
  - destruct (truthy comparer && _isNotFunction comparer) eqn:Hcmp.
    { rewrite change_bad_comparer by done. by apply effect_none. }
    destruct (_isInvalidString event) eqn:E.
    { destruct (change_throws event comparer next s E) as [e ->].
      by apply effect_none. }
    apply invalid_string_spec in E as (name & -> & Hne).
    destruct (observe_frame (VStr name) s) as (Hc & _ & _ & _ & Hi & Ht).
    destruct (decide (yields_topic name s)) as [Hy|Hy];
      [|rewrite change_stray by done; by apply effect_none].
    destruct next as [cb|].
    + rewrite change_eq by done.
      eapply (effect_subscribe _ _ _ []); simpl; rewrite ?Hc, ?Hi, ?Ht; try done.
      * by rewrite app_nil_r.
      * by intros t ?%elem_of_nil.
    + destruct (change_observable_eq name comparer s Hwf Hne Hy Hcmp) as (o & -> & _).
      by apply effect_none.
  - destruct (_isInvalidString event) eqn:E.
    { rewrite fire_throws by done. by apply effect_none. }
    apply invalid_string_spec in E as (name & -> & Hne).
    rewrite fire_eq, Subject_next_eq by done.
    destruct (recorded_frame name data s) as (Hc & Ht & Hi & _).
    apply (effect_broadcast _ _ name data); simpl; by rewrite ?Hc, ?Ht, ?Hi.
  - unfold trigger. destruct (_isInvalidString event) eqn:E.
    { rewrite fire_throws by done. by apply effect_none. }
    apply invalid_string_spec in E as (name & -> & Hne).
    rewrite fire_eq, Subject_next_eq by done.
    destruct (recorded_frame name data s) as (Hc & Ht & Hi & _).
    apply (effect_broadcast _ _ name data); simpl; by rewrite ?Hc, ?Ht, ?Hi.
  - rewrite off_eq. by eapply effect_close.
  - unfold offAll, bind, gets. simpl.
    match goal with |- context [forEach _ ?keys s] =>
      destruct (forEach_off_effect keys s) as (l & Hc & Ht & Hi) end.
    by apply (effect_close _ _ l).
  - by apply (effect_close _ _ [h]).
  - unfold Rx.run_immediate.
    destruct (immediates s) as [|[h r] q] eqn:E; [by apply effect_none|].
    destruct (records s !! r) as [rec|].
    + unfold Rx.Observer_next. simpl.
      destruct (core s !! h) as [sub|] eqn:Hh.
      * destruct (sub_closed sub) eqn:Hcl.
        -- apply (effect_tick _ _ h r q []); simpl; try done.
           ++ by rewrite app_nil_r.
           ++ by left.
        -- apply (effect_tick _ _ h r q (Rx.emit h sub (value rec))); simpl; try done.
           right. by exists sub, (value rec).
      * apply (effect_tick _ _ h r q []); simpl; try done.
        -- by rewrite app_nil_r.
        -- by left.
    + apply (effect_tick _ _ h r q []); simpl; try done.
      * by rewrite app_nil_r.
      * by left.
Qed.

(** *** What a handle has received *)

Section Filter.
Context {A : Type} (P : A → Prop) `{∀ x, Decision (P x)}.

Lemma filter_all (l : list A) : (∀ x, x ∈ l → P x) → filter P l = l.
Proof.
  induction l as [|y l IH]; intros Hall; [done|].
  rewrite filter_cons_True by (apply Hall, list_elem_of_here).
  f_equal. apply IH. intros x Hx. by apply Hall, list_elem_of_further.
Qed.

Lemma filter_none (l : list A) : (∀ x, x ∈ l → ¬ P x) → filter P l = [].
Proof.
  induction l as [|y l IH]; intros Hall; [done|].
  rewrite filter_cons_False by (apply Hall, list_elem_of_here).
  apply IH. intros x Hx. by apply Hall, list_elem_of_further.
Qed.
End Filter.

Lemma received_append h s s' ds :
  trace s' = trace s ++ ds →
  received h s' = received h s ++ (d_payload <$> filter (fun d => d_handle d = h) ds).
Proof. intros Ht. unfold received. by rewrite Ht, filter_app, fmap_app. Qed.

Lemma received_same h s s' : trace s' = trace s → received h s' = received h s.
Proof. intros Ht. unfold received. by rewrite Ht. Qed.

Lemma Subject_next_from_handles e x k subs d :
  d ∈ (Rx.Subject_next_from e x k subs).2 → k ≤ d_handle d < k + length subs.
Proof.
  intros (i & sub & Hi & Hd)%Subject_next_from_elem.
  apply Subscriber_next_handle in Hd. apply lookup_lt_Some in Hi. lia.
Qed.

(** The deliveries of one broadcast that go to the chain at position
    [k + i] are the ones that chain produced. *)
Lemma Subject_next_from_filter e x k subs i :
  filter (fun d => d_handle d = k + i) (Rx.Subject_next_from e x k subs).2 =
  match subs !! i with
  | Some sub => (Rx.Subscriber_next e x (k + i) sub).2
  | None => []
  end.
Proof.
  revert k i. induction subs as [|sub rest IH]; intros k i; simpl; [done|].
  destruct (Rx.Subscriber_next e x k sub) as [sub' ds] eqn:E.
  pose proof (Subject_next_from_handles e x (S k) rest) as Hrest.
  specialize (IH (S k)).
  destruct (Rx.Subject_next_from e x (S k) rest) as [rest' ds']. simpl in *.
  rewrite filter_app. destruct i as [|i]; simpl.
  - rewrite Nat.add_0_r, E. simpl.
    rewrite filter_all, filter_none, app_nil_r; [done| |].
    + intros d Hd%Hrest. lia.
    + intros d Hd. apply (Subscriber_next_handle e x k sub). by rewrite E.
  - rewrite filter_none.
    + replace (k + S i) with (S (k + i)) by lia. apply IH.
    + intros d Hd.
      assert (d_handle d = k) as ->; [|lia].
      apply (Subscriber_next_handle e x k sub). by rewrite E.
Qed.

Lemma broadcast_filter e x subs h :
  filter (fun d => d_handle d = h) (Rx.Subject_next_from e x 0 subs).2 =
  match subs !! h with
  | Some sub => (Rx.Subscriber_next e x h sub).2
  | None => []
  end.
Proof. exact (Subject_next_from_filter e x 0 subs h). Qed.

Lemma broadcast_lookup e x subs h :
  (Rx.Subject_next_from e x 0 subs).1 !! h =
  (fun sub => (Rx.Subscriber_next e x h sub).1) <$> subs !! h.
Proof. exact (Subject_next_from_lookup e x 0 subs h). Qed.

Lemma Subscriber_next_closed e x h sub :
  sub_closed sub = true → Rx.Subscriber_next e x h sub = (sub, []).
Proof. intros H. unfold Rx.Subscriber_next. by rewrite H. Qed.

Lemma close_closed sub : sub_closed sub = true → Rx.close sub = sub.
Proof. intros H. destruct sub. simpl in *. by subst. Qed.

(** A chain that is closed stays as it is and its callback stays silent. *)
Lemma closed_is_final s s' h sub :
  effect s s' → core s !! h = Some sub → sub_closed sub = true →
  core s' !! h = Some sub ∧ received h s' = received h s.
Proof.
  intros Heff Hh Hcl.
  destruct Heff as [sub' ts Hc Ht Hi Hts|l Hc Ht Hi|e x Hc Ht Hi
                   |h' r q ds Hq Hi Hc Ht Hds|Hc Ht Hi].
  - rewrite Hc. split; [by apply lookup_app_l_Some|by apply received_same].
  - rewrite Hc, close_all_lookup, Hh. simpl.
    rewrite close_closed by done. split; [by destruct (decide _)|by apply received_same].
  - rewrite Hc, broadcast_lookup, Hh. simpl.
    rewrite Subscriber_next_closed by done. split; [done|].
    rewrite (received_append _ _ _ _ Ht).
    rewrite broadcast_filter, Hh.
    rewrite Subscriber_next_closed by done. by rewrite app_nil_r.
  - rewrite Hc. split; [done|]. rewrite (received_append _ _ _ _ Ht).
    destruct Hds as [->|(sub0 & x & Hs0 & Hop & ->)]; [by rewrite app_nil_r|].
    rewrite filter_none; [by rewrite app_nil_r|].
    intros d ->%emit_handle Heq. subst h'. congruence.
  - rewrite Hc. split; [done|by apply received_same].
Qed.

Lemma closed_forever cs s h sub :
  wf s → core s !! h = Some sub → sub_closed sub = true →
  core (run s cs) !! h = Some sub ∧ received h (run s cs) = received h s.
Proof.
  revert s. induction cs as [|c cs IH]; intros s Hwf Hh Hcl; simpl; [done|].
  destruct (closed_is_final s (step s c) h sub (step_effect s c Hwf) Hh Hcl) as [H1 H2].
  destruct (IH (step s c) (wf_step s c Hwf) H1 Hcl) as [H3 H4].
  split; [done|congruence].
Qed.

(** *** [once] *)

Lemma effect_immediates s s' h :
  effect s s' → h < length (core s) →
  (∀ t, t ∈ immediates s → t.1 ≠ h) → (∀ t, t ∈ immediates s' → t.1 ≠ h).
Proof.
  intros Heff Hlt Hold.
  destruct Heff as [sub' ts Hc Ht Hi Hts|l Hc Ht Hi|e x Hc Ht Hi
                   |h' r q ds Hq Hi Hc Ht Hds|Hc Ht Hi]; rewrite Hi; try done.
  - intros t [H|H]%elem_of_app; [by apply Hold|]. rewrite (Hts _ H). lia.
  - intros t Ht'. apply Hold. rewrite Hq. by apply list_elem_of_further.
Qed.

Lemma emit_length h sub x : length (Rx.emit h sub x) ≤ 1.
Proof. unfold Rx.emit. destruct (sub_next sub); simpl; lia. Qed.

Lemma once_inv_effect s s' h :
  effect s s' → once_inv h s → once_inv h s'.
Proof.
  intros Heff [Himm (sub & Hh & Hst)].
  split. { apply (effect_immediates s s' h Heff); [by apply lookup_lt_Some in Hh|done]. }
  destruct Hst as [(Hopen & Hop & Hrec)|(Hcl & Hrec)].
  2:{ destruct (closed_is_final s s' h sub Heff Hh Hcl) as [H1 H2].
      exists sub. split; [done|]. right. by rewrite H2. }
  destruct Heff as [sub' ts Hc Ht Hi Hts|l Hc Ht Hi|e x Hc Ht Hi
                   |h' r q ds Hq Hi Hc Ht Hds|Hc Ht Hi].
  - exists sub. rewrite Hc, (received_same _ _ _ Ht).
    split; [by apply lookup_app_l_Some|by left].
  - rewrite (received_same _ _ _ Ht).
    destruct (decide (h ∈ l)) as [Hin|Hin].
    + exists (Rx.close sub). rewrite Hc, close_all_lookup, decide_True, Hh by done.
      split; [done|]. right. rewrite Hrec. simpl. split; [done|lia].
    + exists sub. rewrite Hc, close_all_lookup, decide_False, Hh by done.
      split; [done|by left].
  - exists (Rx.Subscriber_next e x h sub).1.
    rewrite Hc, broadcast_lookup, Hh. split; [done|].
    rewrite (received_append _ _ _ _ Ht), broadcast_filter, Hh, Hrec. simpl.
    unfold Rx.Subscriber_next, Rx.stage_next. rewrite Hopen, Hop.
    destruct (String.eqb (sub_event sub) e); simpl.
    + right. split; [done|]. rewrite length_fmap. apply emit_length.
    + by left.
  - exists sub. rewrite Hc. split; [done|]. left. split_and!; try done.
    rewrite (received_append _ _ _ _ Ht), Hrec. simpl.
    destruct Hds as [->|(sub0 & x & Hs0 & Hop0 & ->)]; [done|].
    rewrite filter_none; [done|].
    intros d ->%emit_handle Heq. apply (Himm (h', r)); [|done].
    rewrite Hq. apply list_elem_of_here.
  - exists sub. rewrite Hc, (received_same _ _ _ Ht). split; [done|by left].
Qed.

Lemma once_inv_run cs s h : wf s → once_inv h s → once_inv h (run s cs).
Proof.
  revert s. induction cs as [|c cs IH]; intros s Hwf Hinv; simpl; [done|].
  apply IH; [by apply wf_step|].
  by apply (once_inv_effect s (step s c) h (step_effect s c Hwf)).
Qed.

Lemma fresh_handle_silent s : wf s → received (length (core s)) s = [].
Proof.
  intros Hwf. unfold received. rewrite filter_none; [done|].
  intros d Hd Heq. apply (wf_trace _ Hwf) in Hd. lia.
Qed.

(** Right after [once] the new subscription is waiting. *)
Lemma once_inv_start name next s :
  wf s → name ≠ "" → yields_topic name s →
  once_inv (length (core s)) (exec (once (VStr name) next) s).
Proof.
  intros Hwf Hne Hy. unfold exec. rewrite once_eq by done.
  destruct (observe_frame (VStr name) s) as (Hc & _ & _ & _ & Hi & Ht).
  split; simpl.
  - rewrite Hi. intros [h r] Hin Heq. simpl in Heq. subst h.
    apply (wf_immediates _ Hwf) in Hin. lia.
  - rewrite Hc. eexists. split; [apply lookup_snoc_last|]. left. split_and!; try done.
    rewrite <- (fresh_handle_silent s Hwf). by apply received_same.
Qed.

(** C5.  A listener registered with [once(name, cb)] receives at most one
    payload in total.  In any store the manager can reach, [once] on a
    name that yields a topic returns a handle; whatever calls follow, the
    callback of that handle has been invoked at most once; once it has
    been invoked the subscription is closed and no further call, [fire]
    included, invokes it again.  On any other name (a shadowed name that
    is not cached) [once] throws and no listener comes into being: no
    chain is subscribed and nothing is registered.  Where the name is not
    shadowed, the first [fire] on the name is the one that is delivered
    (the callbacks that broadcast invokes being callbacks that return). *)
Theorem once_delivers_at_most_once (name : string) (cb : nat) (s : state)
    (cs cs' : list call) (v : jsval) :
  reachable s → name ≠ "" →
  let h := length (core s) in
  let s1 := exec (once (VStr name) (Some cb)) s in
  (yields_topic name s →
     (once (VStr name) (Some cb) s).1 = Ret h ∧
     length (received h (run s1 cs)) ≤ 1 ∧
     (received h (run s1 cs) ≠ [] →
        (∃ sub, core (run s1 cs) !! h = Some sub ∧ sub_closed sub = true) ∧
        received h (run (run s1 cs) cs') = received h (run s1 cs))) ∧
  (¬ yields_topic name s →
     (∃ e, (once (VStr name) (Some cb) s).1 = Throw e) ∧
     core s1 = core s ∧ subscriptions s1 = subscriptions s) ∧
  (shadowed name s = false →
     received h (step s1 (CallFire (VStr name) v)) = [v]).
Proof.
  intros Hreach Hne h s1. pose proof (reachable_wf s Hreach) as Hwf.
  assert (wf s1) as Hwf1 by (by apply wf_once).
  split_and!.
  - intros Hy.
    pose proof (once_inv_start name (Some cb) s Hwf Hne Hy) as Hstart.
    fold h s1 in Hstart. split_and!.
    + by rewrite once_eq.
    + destruct (once_inv_run cs s1 h Hwf1 Hstart)
        as [_ (sub & Hh & [(_ & _ & ->)|(_ & Hlen)])]; simpl; lia.
    + intros Hnonempty.
      destruct (once_inv_run cs s1 h Hwf1 Hstart)
        as [_ (sub & Hh & [(_ & _ & Hrec)|(Hcl & _)])]; [done|].
      split; [by exists sub|].
      by apply (closed_forever cs' (run s1 cs) h sub); [apply wf_run| |].
  - intros Hy. subst s1. unfold exec. rewrite once_stray by done. simpl.
    destruct (observe_frame (VStr name) s) as (Hc & Hs & _).
    split_and!; [by eexists|done|done].
  - intros Hsh. assert (yields_topic name s) as Hy by (by right).
    pose proof (once_inv_start name (Some cb) s Hwf Hne Hy) as Hstart.
    fold h s1 in Hstart.
    destruct Hstart as [_ (sub & Hh & [(Hopen & Hop & Hrec)|(Hcl & _)])].
    2:{ subst s1 h. unfold exec in Hh. rewrite once_eq in Hh by done. simpl in Hh.
        destruct (observe_frame (VStr name) s) as (Hc & _). rewrite Hc in Hh.
        rewrite lookup_snoc_last in Hh. injection Hh as <-. done. }
    assert (sub = Subscriber name (OpTake 1 0) (Some cb) false) as ->.
    { subst s1 h. unfold exec in Hh. rewrite once_eq in Hh by done. simpl in Hh.
      destruct (observe_frame (VStr name) s) as (Hc & _). rewrite Hc in Hh.
      rewrite lookup_snoc_last in Hh. by injection Hh as <-. }
    simpl. unfold exec. rewrite fire_eq, Subject_next_eq by done.
    destruct (recorded_frame name v s1) as (Hc & Ht & _).
    assert (received h (recorded name v s1) = received h s1) as Hr.
    { by apply received_same. }
    rewrite (received_append h (recorded name v s1) _
               (Rx.Subject_next_from name v 0 (core (recorded name v s1))).2)
      by reflexivity.
    rewrite Hr, Hrec, Hc, broadcast_filter, Hh. simpl.
    unfold Rx.Subscriber_next, Rx.stage_next. simpl. by rewrite String.eqb_refl.
Qed.

Lemma once_delivers_at_most_once_witness :
  received 0 (run (exec (once (VStr "e") (Some 7)) init)
                [CallFire (VStr "e") (VNum 1); CallFire (VStr "e") (VNum 2)])
    = [VNum 1] ∧
  length (received 0 (run (exec (once (VStr "e") (Some 7)) init)
                        [CallFire (VStr "e") (VNum 1); CallFire (VStr "e") (VNum 2)])) ≤ 1 ∧
  received 0 (step (exec (once (VStr "e") (Some 7)) init)
                (CallFire (VStr "e") (VNum 1))) = [VNum 1].
Proof.
  destruct (once_delivers_at_most_once "e" 7 init
              [CallFire (VStr "e") (VNum 1); CallFire (VStr "e") (VNum 2)] []
              (VNum 1)) as (H1 & _ & H3).
  - by exists [].
  - discriminate.
  - split_and!.
    + reflexivity.
    + apply H1. by right.
    + by apply H3.
Defined.

(** *** One broadcast *)








(** *** The topic cache only grows *)


Lemma forEach_off_frame keys s :
  heap (exec (forEach (fun event => off (VStr event)) keys) s) = heap s ∧
  observables (exec (forEach (fun event => off (VStr event)) keys) s) = observables s ∧
  records (exec (forEach (fun event => off (VStr event)) keys) s) = records s.
Proof.
  revert s. induction keys as [|k keys IH]; intros s; [done|].
  unfold exec. simpl. unfold bind. rewrite off_eq.
  match goal with |- context [forEach _ keys ?s1] =>
    destruct (IH s1) as (Hh & Ho & Hr) end.
  unfold exec in *. by rewrite Hh, Ho, Hr.
Qed.







(** *** The event loop *)

Lemma tick_idle s : immediates s = [] → step s Tick = s.
Proof. intros H. simpl. unfold exec, Rx.run_immediate. by rewrite H. Qed.

Lemma run_ticks_idle n s : immediates s = [] → run s (replicate n Tick) = s.
Proof.
  intros H. induction n as [|n IH]; [done|].
  change (run s (replicate (S n) Tick)) with (run (step s Tick) (replicate n Tick)).
  by rewrite tick_idle.
Qed.

Lemma tick_frame s :
  core (step s Tick) = core s ∧ records (step s Tick) = records s.
Proof.
  simpl. unfold exec, Rx.run_immediate.
  destruct (immediates s) as [|[h r] q]; [done|].
  destruct (records s !! r); [|done]. unfold Rx.Observer_next. simpl.
  destruct (core s !! h) as [sub|]; [|done]. by destruct (sub_closed sub).
Qed.

Lemma tick_pop h r q s :
  immediates s = (h, r) :: q → immediates (step s Tick) = q.
Proof.
  intros H. simpl. unfold exec, Rx.run_immediate. rewrite H.
  destruct (records s !! r); [|done]. unfold Rx.Observer_next. simpl.
  destruct (core s !! h) as [sub|]; [|done]. by destruct (sub_closed sub).
Qed.

Lemma tick_replay h r q sub cb rec s :
  immediates s = (h, r) :: q →
  core s !! h = Some sub → sub_closed sub = false → sub_next sub = Some cb →
  records s !! r = Some rec →
  trace (step s Tick) = trace s ++ [Delivery h cb (value rec)].
Proof.
  intros Hq Hh Hcl Hcb Hr. simpl. unfold exec, Rx.run_immediate. rewrite Hq, Hr.
  unfold Rx.Observer_next. simpl. rewrite Hh, Hcl. simpl.
  unfold Rx.emit. by rewrite Hcb.
Qed.

Lemma tick_other h h' r q s :
  immediates s = (h', r) :: q → h' ≠ h →
  received h (step s Tick) = received h s.
Proof.
  intros Hq Hne. simpl. unfold exec, Rx.run_immediate. rewrite Hq.
  destruct (records s !! r) as [rec|]; [|done]. unfold Rx.Observer_next. simpl.
  destruct (core s !! h') as [sub|]; [|done].
  destruct (sub_closed sub); [done|]. simpl.
  unfold received. simpl. rewrite filter_app, fmap_app.
  rewrite (filter_none _ (Rx.emit h' sub (value rec))); [by rewrite app_nil_r|].
  intros d ->%emit_handle. done.
Qed.

(** A replay that waits behind [q] in the queue is delivered by the tick
    after the [length q] ticks that serve [q], once, and by no other. *)
Lemma replay_after_queue q h r sub cb rec s n :
  immediates s = q ++ [(h, r)] → (∀ t, t ∈ q → t.1 ≠ h) →
  core s !! h = Some sub → sub_closed sub = false → sub_next sub = Some cb →
  records s !! r = Some rec →
  received h (run s (replicate n Tick)) =
  received h s ++ (if n <=? length q then [] else [value rec]).
Proof.
  revert s n. induction q as [|[h' r'] q IH]; intros s n Hq Hfresh Hh Hcl Hcb Hr.
  - destruct n as [|n]; [by simpl; rewrite app_nil_r|].
    change (run s (replicate (S n) Tick)) with (run (step s Tick) (replicate n Tick)).
    rewrite run_ticks_idle by (by apply (tick_pop h r [])).
    rewrite (received_append h s _ _ (tick_replay h r [] sub cb rec s Hq Hh Hcl Hcb Hr)).
    by rewrite filter_cons_True, filter_nil.
  - destruct n as [|n]; [by simpl; rewrite app_nil_r|].
    change (run s (replicate (S n) Tick)) with (run (step s Tick) (replicate n Tick)).
    destruct (tick_frame s) as [Hc Hrec].
    rewrite (IH (step s Tick) n).
    + rewrite (tick_other h h' r' (q ++ [(h, r)]) s Hq).
      * done.
      * apply (Hfresh (h', r')), list_elem_of_here.
    + by apply (tick_pop h' r').
    + intros t Ht. by apply Hfresh, list_elem_of_further.
    + by rewrite Hc.
    + done.
    + done.
    + by rewrite Hrec.
Qed.




(** *** The latest-value store *)













(** C9 (as stated, refuted).  The falsy comparers [0], [''] and [null] are
    not rejected: [change] returns the filtered stream, as it does when no
    comparer is given. *)
Lemma change_accepts_falsy_comparer :
  _isNotFunction (VNum 0) = true ∧
  _isNotFunction (VStr "") = true ∧
  _isNotFunction VNull = true ∧
  (change (VStr "e") (VNum 0) None init).1 = Ret (inl 1) ∧
  (change (VStr "e") (VStr "") None init).1 = Ret (inl 1) ∧
  (change (VStr "e") VNull None init).1 = Ret (inl 1) ∧
  (change (VStr "e") VUndefined None init).1 = Ret (inl 1).
Proof. by vm_compute. Qed.

(** C9 (amended).  A comparer that is not callable makes [change] throw
    [TypeError('comparer should be a function')], before any side effect,
    exactly when it is truthy.  A falsy comparer is replaced by
    [_defaultComparer] and the call goes on as if none had been given. *)
Theorem change_rejects_truthy_non_callable (event comparer : jsval)
    (next : option nat) (s : state) :
  _isNotFunction comparer = true →
  (truthy comparer = true →
     change event comparer next s =
     (Throw (TypeError "comparer should be a function"), s)) ∧
  (truthy comparer = false →
     change event comparer next s = change event VUndefined next s).
Proof.
  intros Hnf. split; intros Ht.
  - apply change_bad_comparer. by rewrite Ht, Hnf.
  - unfold change, js_or. by rewrite Ht.
Qed.

Lemma change_rejects_truthy_non_callable_witness :
  change (VStr "e") (VObj 3 []) None init =
    (Throw (TypeError "comparer should be a function"), init) ∧
  change (VStr "e") (VNum 0) None init = change (VStr "e") VUndefined None init.
Proof.
  split.
  - apply (change_rejects_truthy_non_callable (VStr "e") (VObj 3 []) None init);
      reflexivity.
  - apply (change_rejects_truthy_non_callable (VStr "e") (VNum 0) None init);
      reflexivity.
Defined.

(** C2 (the code does not do what the claim says).  The comparer given to
    [change] is checked and then dropped: the stream is built by
    [distinctUntilChanged(_keySelector)], so any two function values give
    the same result.  With a comparer on [.v], [{v:1}] followed by [{v:2}]
    reaches the listener once, where the comparer calls them different;
    with the default comparer two distinct objects [{v:1}] reach it once,
    where identity calls them different; and [0] followed by [0] reaches
    it twice. *)
Theorem change_drops_comparer (a1 a2 : nat) (src1 src2 : string)
    (event : jsval) (next : option nat) (s : state) :
  change event (VFun a1 src1) next s = change event (VFun a2 src2) next s ∧
  (let by_v := VFun 9 "function (x, y) { return x.v === y.v; }" in
   let p := VObj 1 [("v", 1%Z)] in
   let q := VObj 2 [("v", 2%Z)] in
   received 0 (run init [CallChange (VStr "e") by_v (Some 7);
                         CallFire (VStr "e") p; CallFire (VStr "e") q]) = [p] ∧
   collapse same_v None [p; q] = [p; q]) ∧
  (let p := VObj 1 [("v", 1%Z)] in
   let p' := VObj 2 [("v", 1%Z)] in
   received 0 (run init [CallChange (VStr "e") VUndefined (Some 7);
                         CallFire (VStr "e") p; CallFire (VStr "e") p']) = [p] ∧
   collapse strict_eq None [p; p'] = [p; p'] ∧
   collapse same_v None [p; p'] = [p]) ∧
  (received 0 (run init [CallChange (VStr "e") VUndefined (Some 7);
                         CallFire (VStr "e") (VNum 0); CallFire (VStr "e") (VNum 0)])
     = [VNum 0; VNum 0] ∧
   collapse strict_eq None [VNum 0; VNum 0] = [VNum 0]).
Proof.
  split; [reflexivity|]. by vm_compute.
Qed.

(** *** The registry *)

Lemma on_registry name next s :
  wf s → name ≠ "" → yields_topic name s →
  subscriptions (exec (on (VStr name) next) s) !! name =
  Some (default [] (subscriptions s !! name)
          ++ replicate (wrappers_of name s + 2) (length (core s))).
Proof.
  intros Hwf Hne Hy. unfold exec. rewrite on_eq by done.
  unfold set_subscriptions, set_core. cbn [snd subscriptions].
  destruct (observe_frame (VStr name) s) as (_ & -> & _).
  rewrite iter_register_lookup. do 3 f_equal. lia.
Qed.

Lemma on_wrappers name next s :
  wf s → name ≠ "" → yields_topic name s →
  wrappers_of name (exec (on (VStr name) next) s) = S (wrappers_of name s).
Proof.
  intros Hwf Hne Hy. unfold exec. rewrite on_eq by done.
  destruct (observe_ok name s Hwf Hne Hy) as (o & _ & Hcache & Hheap & _).
  unfold wrappers_of at 1. simpl. by rewrite Hcache, Hheap.
Qed.

(** Once a name has gone through [observe] it is cached, and stays a name
    that yields a topic. *)
Lemma on_cached name next s :
  wf s → name ≠ "" → yields_topic name s →
  yields_topic name (exec (on (VStr name) next) s).
Proof.
  intros Hwf Hne Hy. unfold exec. rewrite on_eq by done.
  destruct (observe_ok name s Hwf Hne Hy) as (o & _ & Hcache & _).
  left. simpl. by rewrite Hcache.
Qed.

Lemma once_registry name next s :
  wf s → name ≠ "" → yields_topic name s →
  subscriptions (exec (once (VStr name) next) s) !! name =
  Some (default [] (subscriptions s !! name) ++ [length (core s)]).
Proof.
  intros Hwf Hne Hy. unfold exec. rewrite once_eq by done. simpl.
  destruct (observe_frame (VStr name) s) as (_ & -> & _).
  apply register_lookup.
Qed.

(** [k] calls of [on] in a row: the wrappers pile up, and so do the
    entries each call adds. *)
Lemma on_repeated name next k s :
  wf s → name ≠ "" → yields_topic name s →
  wrappers_of name (run s (replicate k (CallOn (VStr name) next)))
    = wrappers_of name s + k ∧
  2 * length (default [] (subscriptions (run s (replicate k (CallOn (VStr name) next)))
                            !! name))
    = 2 * length (default [] (subscriptions s !! name))
      + k * (2 * wrappers_of name s + k + 3).
Proof.
  intros Hwf Hne Hy. revert s Hwf Hy. induction k as [|k IH]; intros s Hwf Hy.
  - simpl. lia.
  - change (run s (replicate (S k) (CallOn (VStr name) next)))
      with (run (step s (CallOn (VStr name) next)) (replicate k (CallOn (VStr name) next))).
    destruct (IH (step s (CallOn (VStr name) next)) (wf_step _ _ Hwf)
                (on_cached name next s Hwf Hne Hy)) as [Hw Hl].
    rewrite Hw, Hl. simpl step.
    rewrite on_wrappers, on_registry by done. simpl.
    rewrite length_app, length_replicate. split; [lia|nia].
Qed.

Lemma unsubscribe_twice (h : nat) (c : list subscriber) :
  alter Rx.close h (alter Rx.close h c) = alter Rx.close h c.
Proof.
  rewrite list_alter_alter_eq. apply list_alter_ext; [|done].
  intros sub _. by destruct sub.
Qed.

(** C10 (as stated, refuted).  Two calls of [on] leave five entries for
    the name, not four: the second call goes through two wrappers.  Two
    calls of [once] leave two entries, one each: the stream [take(1)]
    returns has no wrapper. *)
Lemma registry_is_not_doubled :
  subscriptions (run init [CallOn (VStr "e") (Some 7)]) !! "e" = Some [0; 0] ∧
  subscriptions (run init [CallOn (VStr "e") (Some 7); CallOn (VStr "e") (Some 8)]) !! "e"
    = Some [0; 0; 1; 1; 1] ∧
  subscriptions (run init [CallOnce (VStr "e") (Some 7); CallOnce (VStr "e") (Some 8)]) !! "e"
    = Some [0; 1].
Proof. by vm_compute. Qed.

(** C10 (amended).  For a name that yields a topic, [on(name, ...)]
    appends the handle it returns to the registry collection of [name]
    once more than there are wrappers on the topic's [subscribe], that is,
    [w + 2] times where [w] counts the earlier calls of [observe] for that
    name, made directly or through [on], [once], [latest] and [change]:
    twice only when the name has never been observed.  [once(name, ...)] appends its handle exactly once.
    After [k] successive calls of [on] the collection has grown by
    [k (2 w + k + 3) / 2] entries.  [off(name)] unsubscribes every entry
    of the collection, duplicates included, and unsubscribing a handle a
    second time changes nothing. *)
Theorem registry_entries_per_call (name : string) (next : option nat)
    (s : state) (k : nat) :
  reachable s → name ≠ "" → yields_topic name s →
  let h := length (core s) in
  let w := wrappers_of name s in
  let registered := default [] (subscriptions s !! name) in
  (on (VStr name) next s).1 = Ret h ∧
  subscriptions (exec (on (VStr name) next) s) !! name
    = Some (registered ++ replicate (w + 2) h) ∧
  (observables s !! name = None →
     subscriptions (exec (on (VStr name) next) s) !! name = Some (registered ++ [h; h])) ∧
  (once (VStr name) next s).1 = Ret h ∧
  subscriptions (exec (once (VStr name) next) s) !! name = Some (registered ++ [h]) ∧
  2 * length (default [] (subscriptions (run s (replicate k (CallOn (VStr name) next)))
                            !! name))
    = 2 * length registered + k * (2 * w + k + 3) ∧
  core (exec (off (VStr name)) s) = foldl (fun c h => alter Rx.close h c) (core s) registered ∧
  subscriptions (exec (off (VStr name)) s) !! name = None ∧
  (∀ (h' : nat) (c : list subscriber),
     alter Rx.close h' (alter Rx.close h' c) = alter Rx.close h' c).
Proof.
  intros Hreach Hne Hy h w registered. pose proof (reachable_wf s Hreach) as Hwf.
  split_and!.
  - by rewrite on_eq.
  - by apply on_registry.
  - intros Hnone. rewrite on_registry by done.
    unfold wrappers_of. by rewrite Hnone.
  - by rewrite once_eq.
  - by apply once_registry.
  - by apply on_repeated.
  - unfold exec. by rewrite off_eq.
  - unfold exec. rewrite off_eq. simpl. apply lookup_delete_eq.
  - apply unsubscribe_twice.
Qed.

Lemma registry_entries_per_call_witness :
  subscriptions (exec (on (VStr "e") (Some 8)) (run init [CallOn (VStr "e") (Some 7)])) !! "e"
    = Some ([0; 0] ++ replicate 3 1) ∧
  subscriptions (exec (once (VStr "e") (Some 8)) (run init [CallOn (VStr "e") (Some 7)])) !! "e"
    = Some ([0; 0] ++ [1]).
Proof.
  destruct (registry_entries_per_call "e" (Some 8)
              (run init [CallOn (VStr "e") (Some 7)]) 0)
    as (_ & H1 & _ & _ & H2 & _).
  - by exists [CallOn (VStr "e") (Some 7)].
  - discriminate.
  - by right.
  - split; [exact H1|exact H2].
Defined.

(** *** Listeners after [off] *)

Lemma silent_ticks n h s :
  (∀ t, t ∈ immediates s → t.1 ≠ h) →
  received h (run s (replicate n Tick)) = received h s.
Proof.
  revert s. induction n as [|n IH]; intros s Hfresh; [done|].
  change (run s (replicate (S n) Tick)) with (run (step s Tick) (replicate n Tick)).
  destruct (immediates s) as [|[h' r] q] eqn:E.
  - rewrite tick_idle by done. apply IH. by rewrite E.
  - rewrite IH.
    + apply (tick_other h h' r q s E). apply (Hfresh (h', r)), list_elem_of_here.
    + rewrite (tick_pop h' r q s E). intros t Ht.
      by apply Hfresh, list_elem_of_further.
Qed.

(** An open direct listener on [name] receives every payload fired on
    [name], in order. *)
Lemma direct_listener_receives name cb h xs s :
  name ≠ "" →
  core s !! h = Some (Subscriber name OpNone (Some cb) false) →
  received h (run s (CallFire (VStr name) <$> xs)) = received h s ++ xs.
Proof.
  intros Hne. revert s. induction xs as [|x xs IH]; intros s Hh.
  - simpl. by rewrite app_nil_r.
  - change (run s (CallFire (VStr name) <$> x :: xs))
      with (run (step s (CallFire (VStr name) x)) (CallFire (VStr name) <$> xs)).
    destruct (recorded_frame name x s) as (Hc & Ht & _).
    assert (core (step s (CallFire (VStr name) x)) !! h
            = Some (Subscriber name OpNone (Some cb) false)) as Hh'.
    { simpl. unfold exec. rewrite fire_eq, Subject_next_eq by done. simpl.
      rewrite Hc, broadcast_lookup, Hh. simpl.
      unfold Rx.Subscriber_next. simpl. by rewrite String.eqb_refl. }
    assert (received h (step s (CallFire (VStr name) x)) = received h s ++ [x]) as Hr.
    { simpl. unfold exec. rewrite fire_eq, Subject_next_eq by done.
      rewrite (received_append h (recorded name x s) _
                 (Rx.Subject_next_from name x 0 (core (recorded name x s))).2)
        by reflexivity.
      rewrite (received_same h s (recorded name x s) Ht).
      rewrite Hc, broadcast_filter, Hh.
      unfold Rx.Subscriber_next. simpl. by rewrite String.eqb_refl. }
    rewrite (IH _ Hh'), Hr. by rewrite <- app_assoc.
Qed.

Lemma off_without_listeners name s :
  subscriptions s !! name = None →
  exec (off (VStr name)) s = set_latestEventData (delete name) s.
Proof.
  intros Hnone. unfold exec. rewrite off_eq. simpl.
  unfold set_latestEventData, set_subscriptions, set_core. simpl.
  rewrite Hnone. simpl. by rewrite (delete_id (subscriptions s)).
Qed.

(** A subscription made on the stream [change(name)] returns is not in
    the registry, and [off] does not reach it. *)
Example derived_subscription_is_not_registered :
  let calls := [CallChange (VStr "e") VUndefined None;
                CallSubscribe 1 (Some 7);
                CallFire (VStr "e") (VNum 0);
                CallOff (VStr "e");
                CallFire (VStr "e") (VNum 5)] in
  subscriptions (run init (take 2 calls)) !! "e" = None ∧
  received 0 (run init calls) = [VNum 0; VNum 5].
Proof. by vm_compute. Qed.

(** C8 (as stated, refuted).  On a name that has no listener but has a
    recorded value, [off] is not a no-op: it deletes the record, and a
    [latest] that would have replayed the value replays nothing. *)
Lemma off_without_listeners_clears_replay :
  let s0 := run init [CallFire (VStr "e") (VNum 1)] in
  subscriptions s0 !! "e" = None ∧
  core s0 = [] ∧
  exec (off (VStr "e")) s0 ≠ s0 ∧
  peek "e" s0 = Some (LatestRecord true (VNum 1)) ∧
  peek "e" (exec (off (VStr "e")) s0) = None ∧
  received 0 (run s0 [CallLatest (VStr "e") (Some 7); Tick]) = [VNum 1] ∧
  received 0 (run s0 [CallOff (VStr "e"); CallLatest (VStr "e") (Some 7); Tick]) = [].
Proof.
  intros s0. split_and!; by vm_compute.
Qed.

(** C8 (amended).  [off(name)] returns normally, unsubscribes every handle
    registered for [name], removes the registry collection and deletes the
    latest-value record.  Hence: a [latest(name, cb)] issued next schedules
    no replay and the event loop delivers nothing to [cb]; whatever calls
    follow, a listener that was registered for [name] receives nothing
    more; where the name is not shadowed, [on] after the [off] registers
    a listener that receives every payload fired on [name] from then on
    (the callbacks invoked on the way being callbacks that return).  On a
    name with no registered listener [off] cancels nothing and does
    nothing but delete the latest-value record, so it leaves the store as
    it is exactly when no value is recorded either. *)
Theorem off_cancels_and_clears (name : string) (cb : nat) (s : state)
    (cs : list call) (n : nat) (xs : list jsval) :
  reachable s → name ≠ "" →
  let s1 := exec (off (VStr name)) s in
  (off (VStr name) s).1 = Ret tt ∧
  subscriptions s1 !! name = None ∧
  peek name s1 = None ∧
  (∀ l h, subscriptions s !! name = Some l → h ∈ l →
     (∃ sub, core s1 !! h = Some sub ∧ sub_closed sub = true) ∧
     received h (run s1 cs) = received h s) ∧
  immediates (exec (latest (VStr name) (Some cb)) s1) = immediates s1 ∧
  received (length (core s1))
    (run (exec (latest (VStr name) (Some cb)) s1) (replicate n Tick)) = [] ∧
  (shadowed name s = false →
     (on (VStr name) (Some cb) s1).1 = Ret (length (core s1)) ∧
     received (length (core s1))
       (run (exec (on (VStr name) (Some cb)) s1) (CallFire (VStr name) <$> xs)) = xs) ∧
  (subscriptions s !! name = None → s1 = set_latestEventData (delete name) s) ∧
  (subscriptions s !! name = None → latestEventData s !! name = None → s1 = s).
Proof.
  intros Hreach Hne s1. pose proof (reachable_wf s Hreach) as Hwf.
  assert (wf s1) as Hwf1 by (by apply wf_off).
  assert (latestEventData s1 !! name = None) as Hlat.
  { subst s1. unfold exec. rewrite off_eq. simpl. apply lookup_delete_eq. }
  destruct (observe_frame (VStr name) s1) as (Hc & _ & _ & _ & Hi & Ht).
  split_and!.
  - by rewrite off_eq.
  - subst s1. unfold exec. rewrite off_eq. simpl. apply lookup_delete_eq.
  - unfold peek. by rewrite Hlat.
  - intros l h Hl Hin.
    pose proof (wf_registry _ Hwf _ _ _ Hl Hin) as Hlt.
    apply lookup_lt_is_Some_2 in Hlt as [sub Hsub].
    assert (core s1 !! h = Some (Rx.close sub)) as Hh.
    { subst s1. unfold exec. rewrite off_eq. simpl.
      rewrite Hl. simpl. by rewrite close_all_lookup, decide_True, Hsub. }
    split; [by exists (Rx.close sub)|].
    destruct (closed_forever cs s1 h (Rx.close sub) Hwf1 Hh eq_refl) as [_ ->].
    apply received_same. subst s1. unfold exec. by rewrite off_eq.
  - destruct (decide (yields_topic name s1)) as [Hy|Hy];
      [|unfold exec; by rewrite latest_stray].
    unfold exec. rewrite latest_eq by done. simpl.
    unfold replay_task. by rewrite Hi, Hlat, app_nil_r.
  - destruct (decide (yields_topic name s1)) as [Hy|Hy].
    + rewrite silent_ticks.
      * unfold exec. rewrite latest_eq by done.
        rewrite <- (fresh_handle_silent s1 Hwf1). by apply received_same.
      * unfold exec. rewrite latest_eq by done. simpl.
        unfold replay_task. rewrite Hi, Hlat, app_nil_r.
        intros [h r] Hin Heq. apply (wf_immediates _ Hwf1) in Hin. simpl in Heq. lia.
    + unfold exec. rewrite latest_stray by done. simpl. rewrite silent_ticks.
      * rewrite <- (fresh_handle_silent s1 Hwf1). by apply received_same.
      * fold (exec (observe (VStr name)) s1). rewrite Hi.
        intros [h r] Hin Heq. apply (wf_immediates _ Hwf1) in Hin. simpl in Heq. lia.
  - intros Hsh. assert (yields_topic name s1) as Hy.
    { right. subst s1. unfold exec. rewrite off_eq. exact Hsh. }
    split; [by rewrite on_eq|].
    rewrite (direct_listener_receives name cb); [| done |].
    + unfold exec. rewrite on_eq by done.
      rewrite (received_same _ s1), (fresh_handle_silent s1 Hwf1); done.
    + unfold exec. rewrite on_eq by done. simpl. rewrite Hc. apply lookup_snoc_last.
  - apply off_without_listeners.
  - intros Hs Hl. subst s1. rewrite off_without_listeners by done.
    unfold set_latestEventData. rewrite (delete_id (latestEventData s)) by done.
    by destruct s.
Qed.

Lemma off_cancels_and_clears_witness :
  let s := run init [CallOn (VStr "temp") (Some 1); CallFire (VStr "temp") (VNum 20)] in
  received 0 s = [VNum 20] ∧
  received 0 (run (exec (off (VStr "temp")) s) [CallFire (VStr "temp") (VNum 25)])
    = received 0 s ∧
  received 1 (run (exec (on (VStr "temp") (Some 2)) (exec (off (VStr "temp")) s))
                (CallFire (VStr "temp") <$> [VNum 30])) = [VNum 30].
Proof.
  intros s.
  destruct (off_cancels_and_clears "temp" 2 s [CallFire (VStr "temp") (VNum 25)] 0 [VNum 30])
    as (_ & _ & _ & Hold & _ & _ & Hnew & _).
  - by exists [CallOn (VStr "temp") (Some 1); CallFire (VStr "temp") (VNum 20)].
  - discriminate.
  - split_and!.
    + by vm_compute.
    + apply (Hold [0; 0] 0); [by vm_compute|apply list_elem_of_here].
    + by apply Hnew.
Defined.

(** *** Proving an invariant call by call *)

Lemma observe_shape name s :
  name ≠ "" → observed name s (exec (observe (VStr name)) s).
Proof. apply observe_observed. Qed.

Section Invariant.
Variable Inv : state → Prop.
Variables ok_fire ok_off : string → Prop.

Hypothesis Inv_observed : ∀ s name s1,
  wf s → Inv s → name ≠ "" → observed name s s1 → Inv s1.
Hypothesis Inv_subscribe : ∀ s (o : nat) ob next,
  wf s → Inv s → heap s !! o = Some ob →
  Inv (set_subscriptions
         (Nat.iter (obs_wrappers ob) (register (obs_event ob) (length (core s))))
         (set_core (fun c => c ++ [Subscriber (obs_event ob) (obs_op ob) next false]) s)).
Hypothesis Inv_lift : ∀ s ob,
  wf s → Inv s → 0 = obs_wrappers ob → obs_op ob ≠ OpNone →
  Inv (set_heap (fun hp => hp ++ [ob]) s).
Hypothesis Inv_register : ∀ s name h sub,
  wf s → Inv s → core s !! h = Some sub → sub_event sub = name →
  Inv (set_subscriptions (register name h) s).
Hypothesis Inv_schedule : ∀ s ts,
  wf s → Inv s → Inv (set_immediates (fun q => q ++ ts) s).
Hypothesis Inv_recorded : ∀ s name data,
  wf s → Inv s → ok_fire name → Inv (recorded name data s).
Hypothesis Inv_broadcast : ∀ s e x,
  wf s → Inv s → Inv (Rx.Subject_next e x s).2.
Hypothesis Inv_off : ∀ s event,
  wf s → Inv s → ok_off (ToPropertyKey event) → Inv (exec (off event) s).
Hypothesis Inv_unsubscribe : ∀ s h,
  wf s → Inv s → Inv (set_core (alter Rx.close h) s).
Hypothesis Inv_tick : ∀ s,
  wf s → Inv s → Inv (Rx.run_immediate s).2.

Lemma Inv_observe name s :
  wf s → Inv s → name ≠ "" → Inv (exec (observe (VStr name)) s).
Proof. intros Hwf HI Hne. by apply (Inv_observed s name), observe_shape. Qed.

Lemma Inv_forEach_off keys s :
  (∀ k, k ∈ keys → ok_off k) → wf s → Inv s →
  Inv (exec (forEach (fun event => off (VStr event)) keys) s).
Proof.
  revert s. induction keys as [|k keys IH]; intros s Hok Hwf HI; [done|].
  unfold exec. simpl. unfold bind. rewrite off_eq.
  pose proof (Inv_off s (VStr k) Hwf HI (Hok k (list_elem_of_here _ _))) as HI1.
  pose proof (wf_off (VStr k) s Hwf) as Hwf1.
  unfold exec in HI1, Hwf1. rewrite off_eq in HI1, Hwf1.
  apply IH; [|done|done]. intros k' Hk'. by apply Hok, list_elem_of_further.
Qed.

Lemma step_preserves s c :
  wf s → Inv s → permits ok_fire ok_off c → Inv (step s c).
Proof.
  intros Hwf HI Hperm.
  destruct c as [event|o next|event next|event next|event next
    |event comparer next|event data|event data|event| |h|]; simpl; unfold exec.
  - destruct (_isInvalidString event) eqn:E; [by rewrite observe_throws|].
    apply invalid_string_spec in E as (name & -> & Hne). by apply Inv_observe.
  - destruct o as [o|m]; [|done]. destruct (heap s !! o) as [ob|] eqn:Ho.
    + rewrite (subscribe_eq _ _ ob) by done. by apply (Inv_subscribe s o).
    + by rewrite subscribe_dangling.
  - destruct (_isInvalidString event) eqn:E; [by rewrite on_throws|].
    apply invalid_string_spec in E as (name & -> & Hne).
    destruct (decide (yields_topic name s)) as [Hy|Hy];
      [|rewrite on_stray by done; by apply Inv_observe].
    destruct (observe_ok name s Hwf Hne Hy) as (o & _ & _ & Hheap & Hwf1).
    destruct (observe_frame (VStr name) s) as (Hc & _).
    pose proof (Inv_observe name s Hwf HI Hne) as HI1.
    rewrite on_eq by done. rewrite <- Hc.
    pose proof (Inv_subscribe _ o _ next Hwf1 HI1 Hheap) as HI2.
    apply (Inv_register _ name (length (core (exec (observe (VStr name)) s)))
             (Subscriber name OpNone next false)) in HI2; try done.
    + by apply wf_subscribed.
    + simpl. apply lookup_snoc_last.
  - destruct (_isInvalidString event) eqn:E; [by rewrite once_throws|].
    apply invalid_string_spec in E as (name & -> & Hne).
    destruct (decide (yields_topic name s)) as [Hy|Hy];
      [|rewrite once_stray by done; by apply Inv_observe].
    destruct (observe_ok name s Hwf Hne Hy) as (o & _ & _ & Hheap & Hwf1).
    destruct (observe_frame (VStr name) s) as (Hc & _).
    pose proof (Inv_observe name s Hwf HI Hne) as HI1.
    rewrite once_eq by done. rewrite <- Hc.
    pose proof (Inv_lift _ (Observable name (OpTake 1 0) 0) Hwf1 HI1 eq_refl) as HI2.
    pose proof (wf_push_obs (Observable name (OpTake 1 0) 0) _ Hwf1) as Hwf2.
    apply (Inv_register _ name (length (core (exec (observe (VStr name)) s)))
             (Subscriber name (OpTake 1 0) next false)).
    + by apply (wf_subscribed name 0).
    + refine (Inv_subscribe _ (length (heap (exec (observe (VStr name)) s)))
                (Observable name (OpTake 1 0) 0) next Hwf2 (HI2 _) _); [done|].
      simpl. apply lookup_snoc_last.
    + simpl. apply lookup_snoc_last.
    + done.
  - destruct (_isInvalidString event) eqn:E; [by rewrite latest_throws|].
    apply invalid_string_spec in E as (name & -> & Hne).
    destruct (decide (yields_topic name s)) as [Hy|Hy]; cycle 1.
    { destruct next as [cb|].
      - rewrite latest_stray by done. by apply Inv_observe.
      - destruct (latest_observable_stray name s Hne Hy) as (m & _ & ->).
        by apply Inv_observe. }
    destruct (observe_ok name s Hwf Hne Hy) as (o & _ & _ & Hheap & Hwf1).
    destruct (observe_frame (VStr name) s) as (Hc & _).
    pose proof (Inv_observe name s Hwf HI Hne) as HI1.
    destruct next as [cb|].
    + rewrite latest_eq by done. rewrite <- Hc.
      pose proof (Inv_subscribe _ o _ (Some cb) Hwf1 HI1 Hheap) as HI2.
      pose proof (wf_subscribed name (S (wrappers_of name s))
                    (Subscriber name OpNone (Some cb) false) _ Hwf1) as Hwf2.
      simpl in HI2.
      apply (Inv_schedule _
               (replay_task name (length (core (exec (observe (VStr name)) s))) s))
        in HI2; [|done].
      apply (Inv_register _ name (length (core (exec (observe (VStr name)) s)))
               (Subscriber name OpNone (Some cb) false)) in HI2; try done.
      * apply wf_schedule; [done|].
        intros t ->%replay_task_handle. simpl. rewrite length_snoc. lia.
      * simpl. apply lookup_snoc_last.
    + by destruct (latest_observable_eq name s Hwf Hne Hy) as (x & -> & _).
  - destruct (truthy comparer && _isNotFunction comparer) eqn:Hcmp.
    { by rewrite change_bad_comparer. }
    destruct (_isInvalidString event) eqn:E.
    { by destruct (change_throws event comparer next s E) as [e ->]. }
    apply invalid_string_spec in E as (name & -> & Hne).
    destruct (decide (yields_topic name s)) as [Hy|Hy];
      [|rewrite change_stray by done; by apply Inv_observe].
    destruct (observe_ok name s Hwf Hne Hy) as (o & _ & _ & Hheap & Hwf1).
    destruct (observe_frame (VStr name) s) as (Hc & _).
    pose proof (Inv_observe name s Hwf HI Hne) as HI1.
    set (op := OpDistinct (fun x _ => _keySelector x) false VUndefined).
    assert (Inv (set_heap (fun hp => hp ++ [Observable name op 0])
                   (exec (observe (VStr name)) s))) as HI2.
    { by apply Inv_lift. }
    pose proof (wf_push_obs (Observable name op 0) _ Hwf1) as Hwf2.
    destruct next as [cb|].
    + rewrite change_eq by done. rewrite <- Hc. fold op.
      apply (Inv_register _ name (length (core (exec (observe (VStr name)) s)))
               (Subscriber name op (Some cb) false)).
      * by apply (wf_subscribed name 0).
      * refine (Inv_subscribe _ (length (heap (exec (observe (VStr name)) s)))
                  (Observable name op 0) (Some cb) Hwf2 HI2 _).
        simpl. apply lookup_snoc_last.
      * simpl. apply lookup_snoc_last.
      * done.
    + by destruct (change_observable_eq name comparer s Hwf Hne Hy Hcmp) as (x & -> & _).
  - destruct (_isInvalidString event) eqn:E; [by rewrite fire_throws|].
    apply invalid_string_spec in E as (name & -> & Hne).
    rewrite fire_eq by done.
    apply Inv_broadcast; [by apply wf_recorded|]. by apply Inv_recorded.
  - unfold trigger. destruct (_isInvalidString event) eqn:E; [by rewrite fire_throws|].
    apply invalid_string_spec in E as (name & -> & Hne).
    rewrite fire_eq by done.
    apply Inv_broadcast; [by apply wf_recorded|]. by apply Inv_recorded.
  - by apply Inv_off.
  - unfold offAll, bind, gets. simpl.
    apply Inv_forEach_off; [|done|done]. intros k _. apply Hperm.
  - by apply Inv_unsubscribe.
  - by apply Inv_tick.
Qed.

Lemma run_preserves cs s :
  wf s → Inv s → Forall (permits ok_fire ok_off) cs → Inv (run s cs).
Proof.
  revert s. induction cs as [|c cs IH]; intros s Hwf HI Hcs; simpl; [done|].
  apply Forall_cons in Hcs as [Hc Hcs].
  apply IH; [by apply wf_step|by apply step_preserves|done].
Qed.

End Invariant.

(** *** Three more invariants of the reachable stores *)

Lemma permits_all c : permits (fun _ => True) (fun _ => True) c.
Proof. by destruct c. Qed.

Lemma iter_register_elem w key h subs n l h' :
  Nat.iter w (register key h) subs !! n = Some l → h' ∈ l →
  h' = h ∧ n = key ∨ ∃ l0, subs !! n = Some l0 ∧ h' ∈ l0.
Proof.
  destruct (decide (key = n)) as [<-|Hne].
  - destruct w as [|w]; [by eauto|].
    rewrite iter_register_lookup. intros [= <-] [Hin|Hin]%elem_of_app.
    + right. destruct (subs !! key) as [l0|]; simpl in Hin; [by eauto|].
      by apply elem_of_nil in Hin.
    + left. change (h :: replicate w h) with (replicate (S w) h) in Hin.
      by apply elem_of_replicate in Hin as [-> _].
  - rewrite iter_register_lookup_ne by done. eauto.
Qed.

Lemma register_elem key h subs n l h' :
  register key h subs !! n = Some l → h' ∈ l →
  h' = h ∧ n = key ∨ ∃ l0, subs !! n = Some l0 ∧ h' ∈ l0.
Proof. apply (iter_register_elem 1). Qed.

Lemma Subscriber_next_event e x h sub :
  sub_event (Rx.Subscriber_next e x h sub).1 = sub_event sub.
Proof.
  unfold Rx.Subscriber_next, Rx.stage_next.
  destruct (sub_closed sub); [done|].
  destruct (String.eqb (sub_event sub) e); [|done].
  destruct (sub_op sub) as [|total count|compare hasKey key]; [done| |].
  - by destruct (S count <=? total).
  - by destruct (if hasKey then truthy (compare key x) else false).
Qed.

Lemma run_immediate_frame s :
  core (Rx.run_immediate s).2 = core s ∧
  heap (Rx.run_immediate s).2 = heap s ∧
  observables (Rx.run_immediate s).2 = observables s ∧
  subscriptions (Rx.run_immediate s).2 = subscriptions s ∧
  records (Rx.run_immediate s).2 = records s ∧
  latestEventData (Rx.run_immediate s).2 = latestEventData s.
Proof.
  unfold Rx.run_immediate. destruct (immediates s) as [|[h r] q]; [done|].
  destruct (records s !! r); [|done]. unfold Rx.Observer_next. simpl.
  destruct (core s !! h) as [sub|]; [|done]. by destruct (sub_closed sub).
Qed.

Lemma wrapped_step s c : wf s → wrapped s → wrapped (step s c).
Proof.
  intros Hwf HI.
  apply (step_preserves wrapped (fun _ => True) (fun _ => True));
    try done; try apply permits_all; clear s c Hwf HI.
  - intros s name s1 Hwf HI Hne [o Ho|Ho Hsh|Ho Hsh] n o' ob; simpl.
    + intros Hn. destruct (decide (o = o')) as [->|Hneq].
      * rewrite list_lookup_alter_eq.
        destruct (heap s !! o') as [ob0|]; [|done]. intros [= <-]. simpl. lia.
      * rewrite list_lookup_alter_ne by done. by apply (HI n o' ob).
    + intros [[<- <-]|[_ Hn]]%lookup_insert_Some.
      * rewrite lookup_snoc_last. by intros [= <-].
      * destruct (wf_cache _ Hwf _ _ Hn) as [w Hw]. rewrite (lookup_app_l_Some _ _ _ _ Hw).
        intros [= <-]. apply (HI n o' _ Hn Hw).
    + destruct (String.eqb name "__proto__"); apply HI.
  - intros s ob Hwf HI _ _ n o ob' Hn. simpl.
    destruct (wf_cache _ Hwf _ _ Hn) as [w Hw]. rewrite (lookup_app_l_Some _ _ _ _ Hw).
    intros [= <-]. apply (HI n o _ Hn Hw).
  - intros s name data Hwf HI _. unfold recorded.
    destruct (latestEventData s !! name); [done|].
    destruct (shadowed name s); [|done]. by destruct (String.eqb name "__proto__").
  - intros s e x Hwf HI. by rewrite Subject_next_eq.
  - intros s event Hwf HI _. unfold exec. by rewrite off_eq.
  - intros s Hwf HI n o ob.
    destruct (run_immediate_frame s) as (_ & -> & -> & _). apply HI.
Qed.

Lemma registry_sound_step s c : wf s → registry_sound s → registry_sound (step s c).
Proof.
  intros Hwf HI.
  apply (step_preserves registry_sound (fun _ => True) (fun _ => True));
    try done; try apply permits_all; clear s c Hwf HI.
  - intros s name s1 Hwf HI Hne [o Ho|Ho Hsh|Ho Hsh]; try done.
    by destruct (String.eqb name "__proto__").
  - intros s o ob next Hwf HI Ho n l h Hn Hin. simpl in *.
    destruct (iter_register_elem _ _ _ _ _ _ _ Hn Hin) as [[-> ->]|(l0 & Hl0 & Hin0)].
    + eexists. split; [apply lookup_snoc_last|done].
    + destruct (HI _ _ _ Hl0 Hin0) as (sub & Hsub & Hev).
      exists sub. split; [by apply lookup_app_l_Some|done].
  - intros s name h sub Hwf HI Hh Hev n l h' Hn Hin. simpl in *.
    destruct (register_elem _ _ _ _ _ _ Hn Hin) as [[-> ->]|(l0 & Hl0 & Hin0)].
    + by exists sub.
    + by apply (HI _ _ _ Hl0 Hin0).
  - intros s name data Hwf HI _. unfold recorded.
    destruct (latestEventData s !! name); [done|].
    destruct (shadowed name s); [|done]. by destruct (String.eqb name "__proto__").
  - intros s e x Hwf HI n l h Hn Hin. rewrite Subject_next_eq in *. simpl in *.
    destruct (HI _ _ _ Hn Hin) as (sub & Hsub & Hev).
    rewrite broadcast_lookup, Hsub. simpl. eexists. split; [done|].
    by rewrite Subscriber_next_event.
  - intros s event Hwf HI _ n l h. unfold exec. rewrite off_eq. simpl.
    intros [_ Hn]%lookup_delete_Some Hin.
    destruct (HI _ _ _ Hn Hin) as (sub & Hsub & Hev).
    rewrite close_all_lookup, Hsub.
    destruct (decide _); [exists (Rx.close sub)|exists sub]; done.
  - intros s h Hwf HI n l h' Hn Hin. simpl in *.
    destruct (HI _ _ _ Hn Hin) as (sub & Hsub & Hev).
    destruct (decide (h = h')) as [->|Hneq].
    + rewrite list_lookup_alter_eq, Hsub. by exists (Rx.close sub).
    + rewrite list_lookup_alter_ne by done. by exists sub.
  - intros s Hwf HI n l h.
    destruct (run_immediate_frame s) as (-> & _ & _ & -> & _). apply HI.
Qed.

Lemma latest_inj_step s c : wf s → latest_inj s → latest_inj (step s c).
Proof.
  intros Hwf HI.
  apply (step_preserves latest_inj (fun _ => True) (fun _ => True));
    try done; try apply permits_all; clear s c Hwf HI.
  - intros s name s1 Hwf HI Hne [o Ho|Ho Hsh|Ho Hsh]; try done.
    by destruct (String.eqb name "__proto__").
  - intros s name data Hwf HI _ n1 n2 r. unfold recorded.
    destruct (latestEventData s !! name) as [r0|] eqn:E; simpl; [apply HI|].
    destruct (shadowed name s);
      [destruct (String.eqb name "__proto__"); apply HI|]. simpl.
    intros [[<- <-]|[_ H1]]%lookup_insert_Some [[<- Heq]|[_ H2]]%lookup_insert_Some.
    + done.
    + destruct (wf_latest _ Hwf _ _ H2) as [v Hv]. apply lookup_lt_Some in Hv. lia.
    + subst r. destruct (wf_latest _ Hwf _ _ H1) as [v Hv].
      apply lookup_lt_Some in Hv. lia.
    + by apply (HI n1 n2 r).
  - intros s e x Hwf HI. by rewrite Subject_next_eq.
  - intros s event Hwf HI _ n1 n2 r. unfold exec. rewrite off_eq. simpl.
    intros [_ H1]%lookup_delete_Some [_ H2]%lookup_delete_Some. by apply (HI n1 n2 r).
  - intros s Hwf HI n1 n2 r.
    destruct (run_immediate_frame s) as (_ & _ & _ & _ & _ & ->). apply HI.
Qed.

Lemma reachable_invariants s :
  reachable s → wf s ∧ wrapped s ∧ registry_sound s ∧ latest_inj s.
Proof.
  intros [cs ->].
  assert (∀ s, wf s ∧ wrapped s ∧ registry_sound s ∧ latest_inj s →
               wf (run s cs) ∧ wrapped (run s cs) ∧ registry_sound (run s cs) ∧
               latest_inj (run s cs)) as Hrun.
  { induction cs as [|c cs IH]; intros s H; [done|]. simpl. apply IH.
    destruct H as (Hwf & H1 & H2 & H3). split_and!.
    - by apply wf_step.
    - by apply wrapped_step.
    - by apply registry_sound_step.
    - by apply latest_inj_step. }
  apply Hrun. split_and!.
  - apply wf_init.
  - intros n o ob. simpl. by rewrite lookup_empty.
  - intros n l h. simpl. by rewrite lookup_empty.
  - intros n1 n2 r. simpl. by rewrite lookup_empty.
Qed.

(** *** Further properties of the methods *)

(** X1.  The store the manager keeps is consistent, whatever calls were
    made.  A name cached in [observables] points to a topic that filters on
    exactly that name and whose [subscribe] has been wrapped at least once;
    every handle in [subscriptions] is an existing chain filtered on the
    name it is registered under; a name in [latestEventData] points to a
    record with [hasValue] true that no other name shares; pending replays
    and past deliveries refer to existing chains. *)
Theorem reachable_store_is_consistent (s : state) :
  reachable s →
  (∀ n o, observables s !! n = Some o →
     ∃ w, heap s !! o = Some (Observable n OpNone (S w))) ∧
  (∀ n l h, subscriptions s !! n = Some l → h ∈ l →
     ∃ sub, core s !! h = Some sub ∧ sub_event sub = n) ∧
  (∀ n r, latestEventData s !! n = Some r →
     ∃ v, records s !! r = Some (LatestRecord true v)) ∧
  (∀ n1 n2 r, latestEventData s !! n1 = Some r →
     latestEventData s !! n2 = Some r → n1 = n2) ∧
  (∀ h r, (h, r) ∈ immediates s → is_Some (core s !! h)) ∧
  (∀ d, d ∈ trace s → is_Some (core s !! d_handle d)).
Proof.
  intros (Hwf & Hwr & Hrs & Hinj)%reachable_invariants. split_and!.
  - intros n o Hn. destruct (wf_cache _ Hwf _ _ Hn) as [w Hw].
    pose proof (Hwr _ _ _ Hn Hw) as Hle. simpl in Hle.
    destruct w as [|w]; [lia|]. by exists w.
  - exact Hrs.
  - exact (wf_latest _ Hwf).
  - exact Hinj.
  - intros h r Hin. apply lookup_lt_is_Some_2. by apply (wf_immediates _ Hwf h r).
  - intros d Hin. apply lookup_lt_is_Some_2. by apply (wf_trace _ Hwf).
Qed.

Lemma reachable_store_is_consistent_witness :
  ∃ sub, core (run init [CallOn (VStr "a") (Some 1); CallOnce (VStr "b") (Some 2)])
           !! 1 = Some sub ∧ sub_event sub = "b".
Proof.
  destruct (reachable_store_is_consistent
              (run init [CallOn (VStr "a") (Some 1); CallOnce (VStr "b") (Some 2)]))
    as (_ & H & _).
  - by exists [CallOn (VStr "a") (Some 1); CallOnce (VStr "b") (Some 2)].
  - apply (H "b" [1] 1); [by vm_compute|apply list_elem_of_here].
Defined.

(** X2.  Which calls return.  On a store the manager can reach and for a
    non-empty name: when the name yields a topic, [observe], [on], [once]
    and [latest] return normally, and so does [change] unless its
    comparer is truthy and not callable; the subscribing calls return the
    position of the new chain, a handle no earlier call has returned.
    When it does not (a shadowed name that is not cached), [on], [once],
    [latest] with a callback and [change] throw, and neither they nor
    [observe] subscribe, build, cache, register or schedule anything. *)
Theorem valid_calls_return (name : string) (comparer : jsval)
    (next : option nat) (cb : nat) (s : state) :
  reachable s → name ≠ "" →
  (yields_topic name s →
     (∃ o : nat, (observe (VStr name) s).1 = Ret (Stored o)) ∧
     (on (VStr name) next s).1 = Ret (length (core s)) ∧
     (once (VStr name) next s).1 = Ret (length (core s)) ∧
     (∃ r, (latest (VStr name) next s).1 = Ret r) ∧
     (truthy comparer && _isNotFunction comparer = false →
        ∃ r, (change (VStr name) comparer next s).1 = Ret r)) ∧
  (¬ yields_topic name s →
     (∃ e, (on (VStr name) next s).1 = Throw e) ∧
     (∃ e, (once (VStr name) next s).1 = Throw e) ∧
     (∃ e, (latest (VStr name) (Some cb) s).1 = Throw e) ∧
     (∃ e, (change (VStr name) comparer next s).1 = Throw e) ∧
     (∀ c, c ∈ [CallObserve (VStr name); CallOn (VStr name) next;
                CallOnce (VStr name) next; CallLatest (VStr name) next;
                CallChange (VStr name) comparer next] →
        core (step s c) = core s ∧ heap (step s c) = heap s ∧
        observables (step s c) = observables s ∧
        subscriptions (step s c) = subscriptions s ∧
        immediates (step s c) = immediates s ∧ trace (step s c) = trace s)) ∧
  (∀ h r, (h, r) ∈ immediates s → h ≠ length (core s)) ∧
  (∀ d, d ∈ trace s → d_handle d ≠ length (core s)) ∧
  (∀ n l, subscriptions s !! n = Some l → length (core s) ∉ l).
Proof.
  intros Hreach Hne. pose proof (reachable_wf s Hreach) as Hwf. split_and!.
  - intros Hy. split_and!.
    + destruct (observe_ok name s Hwf Hne Hy) as (o & -> & _). by exists o.
    + by rewrite on_eq.
    + by rewrite once_eq.
    + destruct next as [cb'|].
      * rewrite latest_eq by done. by eexists.
      * destruct (latest_observable_eq name s Hwf Hne Hy) as (o & -> & _). by eexists.
    + intros Hcmp. destruct next as [cb'|].
      * rewrite change_eq by done. by eexists.
      * destruct (change_observable_eq name comparer s Hwf Hne Hy Hcmp) as (o & -> & _).
        by eexists.
  - intros Hy.
    destruct (observe_stray name s Hne Hy) as (m & Hm & Hobs & Hst).
    assert (core (exec (observe (VStr name)) s) = core s ∧
            heap (exec (observe (VStr name)) s) = heap s ∧
            observables (exec (observe (VStr name)) s) = observables s ∧
            subscriptions (exec (observe (VStr name)) s) = subscriptions s ∧
            immediates (exec (observe (VStr name)) s) = immediates s ∧
            trace (exec (observe (VStr name)) s) = trace s) as Hframe.
    { rewrite Hst. by destruct (String.eqb name "__proto__"). }
    split_and!.
    + rewrite on_stray by done. by eexists.
    + rewrite once_stray by done. by eexists.
    + rewrite latest_stray by done. by eexists.
    + destruct (truthy comparer && _isNotFunction comparer) eqn:Hcmp.
      * rewrite change_bad_comparer by done. by eexists.
      * rewrite change_stray by done. by eexists.
    + intros c Hc. repeat (apply elem_of_cons in Hc as [->|Hc]); simpl step.
      * exact Hframe.
      * unfold exec. by rewrite on_stray.
      * unfold exec. by rewrite once_stray.
      * unfold exec. destruct next as [cb'|].
        -- by rewrite latest_stray.
        -- by destruct (latest_observable_stray name s Hne Hy) as (m' & _ & ->).
      * unfold exec. destruct (truthy comparer && _isNotFunction comparer) eqn:Hcmp.
        -- by rewrite change_bad_comparer.
        -- by rewrite change_stray.
      * by apply elem_of_nil in Hc.
  - intros h r Hin. apply (wf_immediates _ Hwf) in Hin. lia.
  - intros d Hin. apply (wf_trace _ Hwf) in Hin. lia.
  - intros n l Hn Hin. apply (wf_registry _ Hwf _ _ _ Hn) in Hin. lia.
Qed.

Lemma valid_calls_return_witness :
  (on (VStr "e") (Some 7) (run init [CallOnce (VStr "e") None])).1 = Ret 1 ∧
  (∃ e, (on (VStr "toString") (Some 7) (run init [CallOnce (VStr "e") None])).1
        = Throw e).
Proof.
  split.
  - destruct (valid_calls_return "e" VUndefined (Some 7) 7
                (run init [CallOnce (VStr "e") None])) as (H & _).
    + by exists [CallOnce (VStr "e") None].
    + discriminate.
    + apply H. by right.
  - destruct (valid_calls_return "toString" VUndefined (Some 7) 7
                (run init [CallOnce (VStr "e") None])) as (_ & H & _).
    + by exists [CallOnce (VStr "e") None].
    + discriminate.
    + apply H. by intros [[o Ho]|Hsh].
Defined.

Lemma close_close sub : Rx.close (Rx.close sub) = Rx.close sub.
Proof. by destruct sub. Qed.

Lemma forEach_off_registry keys s n :
  subscriptions (exec (forEach (fun event => off (VStr event)) keys) s) !! n =
  if decide (n ∈ keys) then None else subscriptions s !! n.
Proof.
  revert s. induction keys as [|k keys IH]; intros s.
  - by rewrite decide_False by apply not_elem_of_nil.
  - unfold exec. simpl. unfold bind. rewrite off_eq.
    match goal with |- context [forEach _ keys ?s1] =>
      pose proof (IH s1) as H end.
    unfold exec in H. rewrite H. simpl.
    destruct (decide (n ∈ keys)) as [Hin|Hin].
    + by rewrite decide_True by (by apply list_elem_of_further).
    + destruct (decide (k = n)) as [->|Hne].
      * rewrite decide_True by apply list_elem_of_here. apply lookup_delete_eq.
      * rewrite decide_False; [by apply lookup_delete_ne|].
        intros [->|]%elem_of_cons; done.
Qed.

Lemma forEach_off_records keys s n :
  latestEventData (exec (forEach (fun event => off (VStr event)) keys) s) !! n =
  if decide (n ∈ keys) then None else latestEventData s !! n.
Proof.
  revert s. induction keys as [|k keys IH]; intros s.
  - by rewrite decide_False by apply not_elem_of_nil.
  - unfold exec. simpl. unfold bind. rewrite off_eq.
    match goal with |- context [forEach _ keys ?s1] =>
      pose proof (IH s1) as H end.
    unfold exec in H. rewrite H. simpl.
    destruct (decide (n ∈ keys)) as [Hin|Hin].
    + by rewrite decide_True by (by apply list_elem_of_further).
    + destruct (decide (k = n)) as [->|Hne].
      * rewrite decide_True by apply list_elem_of_here. apply lookup_delete_eq.
      * rewrite decide_False; [by apply lookup_delete_ne|].
        intros [->|]%elem_of_cons; done.
Qed.

Lemma forEach_off_returns keys s :
  (forEach (fun event => off (VStr event)) keys s).1 = Ret tt.
Proof.
  revert s. induction keys as [|k keys IH]; intros s; simpl; [done|].
  unfold bind. rewrite off_eq. apply IH.
Qed.

(** Visiting a name closes every chain registered under it, and later
    visits do not reopen it. *)
Lemma forEach_off_closes keys s n l h sub :
  n ∈ keys → subscriptions s !! n = Some l → h ∈ l →
  core s !! h = Some sub →
  core (exec (forEach (fun event => off (VStr event)) keys) s) !! h
  = Some (Rx.close sub).
Proof.
  revert s sub. induction keys as [|k keys IH]; intros s sub Hn Hl Hin Hh.
  { by apply elem_of_nil in Hn. }
  unfold exec. simpl. unfold bind. rewrite off_eq.
  set (s1 := set_latestEventData _ _).
  destruct (decide (k = n)) as [->|Hne].
  - assert (core s1 !! h = Some (Rx.close sub)) as Hh1.
    { subst s1. simpl. rewrite Hl. simpl.
      by rewrite close_all_lookup, decide_True, Hh. }
    destruct (forEach_off_effect keys s1) as (L & Hc & _). unfold exec in Hc.
    rewrite Hc, close_all_lookup, Hh1. simpl.
    destruct (decide _); by rewrite ?close_close.
  - apply elem_of_cons in Hn as [->|Hn]; [done|].
    assert (subscriptions s1 !! n = Some l) as Hl1.
    { subst s1. simpl. by rewrite lookup_delete_ne. }
    assert (∃ sub1, core s1 !! h = Some sub1 ∧ Rx.close sub1 = Rx.close sub)
      as (sub1 & Hh1 & Hcl).
    { subst s1. simpl. rewrite close_all_lookup, Hh.
      destruct (decide _); eexists; (split; [done|]); [apply close_close|done]. }
    pose proof (IH s1 sub1 Hn Hl1 Hin Hh1) as H. unfold exec in H.
    by rewrite H, Hcl.
Qed.

(** X4.  [offAll] returns normally and leaves the registry empty.  Every
    handle that was registered, under any name, is closed, and no later
    call delivers anything to it.  The latest-value record is deleted for
    exactly the names that had a registry collection; a value recorded for
    a name without one survives.  The topic cache, the pending replays and
    the trace are left as they are. *)
Theorem offAll_cancels_everything (s : state) (cs : list call) :
  reachable s →
  (offAll s).1 = Ret tt ∧
  subscriptions (exec offAll s) = ∅ ∧
  (∀ n l h, subscriptions s !! n = Some l → h ∈ l →
     (∃ sub, core (exec offAll s) !! h = Some sub ∧ sub_closed sub = true) ∧
     received h (run (exec offAll s) cs) = received h s) ∧
  (∀ n, latestEventData (exec offAll s) !! n =
        match subscriptions s !! n with
        | Some _ => None
        | None => latestEventData s !! n
        end) ∧
  observables (exec offAll s) = observables s ∧
  immediates (exec offAll s) = immediates s ∧
  trace (exec offAll s) = trace s.
Proof.
  intros Hreach. pose proof (reachable_wf s Hreach) as Hwf.
  assert (∀ n, n ∈ (map_to_list (subscriptions s)).*1 ↔ is_Some (subscriptions s !! n))
    as Hkeys.
  { intros n. rewrite list_elem_of_fmap. split.
    - intros ([k l] & -> & Hin). apply elem_of_map_to_list in Hin. by exists l.
    - intros [l Hl]. exists (n, l). split; [done|]. by apply elem_of_map_to_list. }
  unfold offAll, exec, bind, gets. simpl.
  set (keys := (map_to_list (subscriptions s)).*1) in *.
  destruct (forEach_off_effect keys s) as (L & Hc & Ht & Hi).
  destruct (forEach_off_frame keys s) as (_ & Ho & _).
  unfold exec in *. split_and!; try done.
  - apply forEach_off_returns.
  - apply map_eq. intros n. rewrite lookup_empty.
    pose proof (forEach_off_registry keys s n) as H. unfold exec in H. rewrite H.
    destruct (decide (n ∈ keys)) as [Hin|Hin]; [done|].
    destruct (subscriptions s !! n) eqn:E; [|done].
    exfalso. apply Hin, Hkeys. by rewrite E.
  - intros n l h Hl Hin.
    pose proof (wf_registry _ Hwf _ _ _ Hl Hin) as Hlt.
    apply lookup_lt_is_Some_2 in Hlt as [sub Hsub].
    assert (n ∈ keys) as Hn by (apply Hkeys; by rewrite Hl).
    pose proof (forEach_off_closes keys s n l h sub Hn Hl Hin Hsub) as Hh.
    unfold exec in Hh. split; [by exists (Rx.close sub)|].
    pose proof (wf_forEach_off keys s Hwf) as Hwf1. unfold exec in Hwf1.
    destruct (closed_forever cs _ h (Rx.close sub) Hwf1 Hh eq_refl) as [_ ->].
    by apply received_same.
  - intros n. pose proof (forEach_off_records keys s n) as H. unfold exec in H.
    rewrite H. destruct (decide (n ∈ keys)) as [Hin|Hin].
    + apply Hkeys in Hin as [l ->]. done.
    + destruct (subscriptions s !! n) eqn:E; [|done].
      exfalso. apply Hin, Hkeys. by rewrite E.
Qed.

Lemma offAll_cancels_everything_witness :
  let s := run init [CallOn (VStr "a") (Some 1); CallOnce (VStr "b") (Some 2);
                     CallFire (VStr "c") (VNum 3)] in
  subscriptions (exec offAll s) = ∅ ∧
  received 0 (run (exec offAll s) [CallFire (VStr "a") (VNum 9)]) = received 0 s ∧
  latestEventData (exec offAll s) !! "c" = latestEventData s !! "c".
Proof.
  intros s.
  destruct (offAll_cancels_everything s [CallFire (VStr "a") (VNum 9)])
    as (_ & H1 & H2 & H3 & _).
  - by exists [CallOn (VStr "a") (Some 1); CallOnce (VStr "b") (Some 2);
               CallFire (VStr "c") (VNum 3)].
  - split_and!.
    + exact H1.
    + apply (H2 "a" [0; 0] 0); [by vm_compute|apply list_elem_of_here].
    + rewrite (H3 "c"). by vm_compute.
Defined.

Lemma not_clears_permits name c :
  ¬ clears name c → permits (fun _ => True) (fun k => k ≠ name) c.
Proof.
  destruct c; simpl; try done. intros H Heq. apply H. by intros _.
Qed.

Lemma iter_register_extends w key h subs (n : string) (l : list nat) :
  subs !! n = Some l →
  ∃ l', Nat.iter w (register key h) subs !! n = Some (l ++ l').
Proof.
  intros Hn. destruct (decide (key = n)) as [<-|Hne].
  - destruct w as [|w].
    + exists []. by rewrite app_nil_r.
    + rewrite iter_register_lookup, Hn. by eexists.
  - rewrite iter_register_lookup_ne by done. exists []. by rewrite app_nil_r.
Qed.

(** X5.  Between two [off] calls the registry collection of a name only
    grows at its end.  No call other than [off] of that name and [offAll]
    removes or reorders an entry: cancelling a handle directly, or a [once]
    listener that has fired, leaves the handle listed.  ([off] of a
    number whose property key is not known exactly counts as an [off] of
    the name.) *)
Theorem registry_only_grows (name : string) (l : list nat) (s : state)
    (cs : list call) :
  reachable s → subscriptions s !! name = Some l →
  Forall (fun c => ¬ clears name c) cs →
  ∃ l', subscriptions (run s cs) !! name = Some (l ++ l').
Proof.
  intros Hreach Hl Hcs. pose proof (reachable_wf s Hreach) as Hwf.
  apply (run_preserves
           (fun s' => ∃ l', subscriptions s' !! name = Some (l ++ l'))
           (fun _ => True) (fun k => k ≠ name)); try done.
  - intros s0 n s1 _ HI _ [o Ho|Ho Hsh|Ho Hsh]; try done.
    by destruct (String.eqb n "__proto__").
  - intros s0 o ob next _ [l0 Hl0] _. simpl.
    destruct (iter_register_extends (obs_wrappers ob) (obs_event ob)
                (length (core s0)) _ _ _ Hl0) as [l1 Hl1].
    exists (l0 ++ l1). by rewrite Hl1, app_assoc.
  - intros s0 n h sub _ [l0 Hl0] _ _. simpl.
    destruct (iter_register_extends 1 n h _ _ _ Hl0) as [l1 Hl1].
    exists (l0 ++ l1). simpl in Hl1. by rewrite Hl1, app_assoc.
  - intros s0 n data _ HI _.
    by destruct (recorded_frame n data s0) as (_ & _ & _ & ->).
  - intros s0 e x _ HI. by rewrite Subject_next_eq.
  - intros s0 event _ [l0 Hl0] Hne. unfold exec. rewrite off_eq. simpl.
    exists l0. by rewrite lookup_delete_ne.
  - intros s0 _ [l0 Hl0]. destruct (run_immediate_frame s0) as (_ & _ & _ & -> & _).
    by exists l0.
  - exists []. by rewrite app_nil_r.
  - eapply Forall_impl; [exact Hcs|]. intros c. apply not_clears_permits.
Qed.

Lemma registry_only_grows_witness :
  ∃ l', subscriptions (run (run init [CallOnce (VStr "e") (Some 1)])
                         [CallFire (VStr "e") (VNum 5); CallUnsubscribe 0;
                          CallOn (VStr "e") (Some 2)]) !! "e" = Some ([0] ++ l').
Proof.
  apply (registry_only_grows "e" [0] (run init [CallOnce (VStr "e") (Some 1)])).
  - by exists [CallOnce (VStr "e") (Some 1)].
  - by vm_compute.
  - repeat constructor; simpl; tauto.
Defined.

(** X6.  A subscription made directly on the object [observe(name)]
    returned is registered without the caller doing anything: the handle
    is appended to the collection of [name], once for each call of
    [observe] made so far for that name (at least once), and a following
    [off(name)] closes it. *)
Theorem direct_subscription_is_registered (name : string) (o : nat)
    (next : option nat) (s : state) :
  reachable s → observables s !! name = Some o →
  let h := length (core s) in
  let s1 := exec (subscribe o next) s in
  (subscribe o next s).1 = Ret h ∧
  core s1 !! h = Some (Subscriber name OpNone next false) ∧
  1 ≤ wrappers_of name s ∧
  subscriptions s1 !! name
    = Some (default [] (subscriptions s !! name) ++ replicate (wrappers_of name s) h) ∧
  core (exec (off (VStr name)) s1) !! h = Some (Subscriber name OpNone next true).
Proof.
  intros Hreach Ho h s1.
  destruct (reachable_invariants s Hreach) as (Hwf & Hwr & _).
  destruct (wf_cache _ Hwf _ _ Ho) as [w Hw].
  pose proof (Hwr _ _ _ Ho Hw) as Hle. simpl in Hle.
  assert (wrappers_of name s = w) as Hwo by (unfold wrappers_of; by rewrite Ho, Hw).
  destruct w as [|w]; [lia|].
  assert (subscriptions s1 !! name
          = Some (default [] (subscriptions s !! name) ++ replicate (S w) h)) as Hreg.
  { subst s1. unfold exec. rewrite (subscribe_eq _ _ _ _ Hw). simpl.
    apply (iter_register_lookup w name h). }
  assert (core s1 !! h = Some (Subscriber name OpNone next false)) as Hh.
  { subst s1. unfold exec. rewrite (subscribe_eq _ _ _ _ Hw). simpl.
    apply lookup_snoc_last. }
  split_and!.
  - by rewrite (subscribe_eq _ _ _ _ Hw).
  - done.
  - lia.
  - by rewrite Hwo.
  - unfold exec at 1. rewrite off_eq. simpl. rewrite Hreg. simpl.
    rewrite close_all_lookup, decide_True, Hh; [done|].
    apply elem_of_app. right. apply list_elem_of_here.
Qed.

Lemma direct_subscription_is_registered_witness :
  subscriptions (exec (subscribe 0 (Some 7)) (run init [CallObserve (VStr "e")])) !! "e"
    = Some ([] ++ replicate 1 0).
Proof.
  destruct (direct_subscription_is_registered "e" 0 (Some 7)
              (run init [CallObserve (VStr "e")])) as (_ & _ & _ & H & _).
  - by exists [CallObserve (VStr "e")].
  - by vm_compute.
  - exact H.
Defined.

(** X7.  [off] acts on one name only, the property key of its argument
    (taken here for an argument whose key is known exactly).  A chain
    filtered on another name is left exactly as it is, open chains stay
    open, and the registry collection and the latest-value record of
    every other name are untouched; so are the topic cache, the pending
    replays and the trace. *)
Theorem off_leaves_other_names (event : jsval) (s : state) :
  reachable s → exact_key event →
  let s1 := exec (off event) s in
  (∀ h sub, core s !! h = Some sub → sub_event sub ≠ ToPropertyKey event →
     core s1 !! h = Some sub) ∧
  (∀ n, n ≠ ToPropertyKey event →
     subscriptions s1 !! n = subscriptions s !! n ∧ peek n s1 = peek n s) ∧
  length (core s1) = length (core s) ∧
  heap s1 = heap s ∧ observables s1 = observables s ∧ records s1 = records s ∧
  immediates s1 = immediates s ∧ trace s1 = trace s.
Proof.
  intros Hreach _ s1. destruct (reachable_invariants s Hreach) as (Hwf & _ & Hrs & _).
  subst s1. unfold exec. rewrite off_eq. simpl. split_and!; try done.
  - intros h sub Hh Hev. rewrite close_all_lookup, Hh.
    destruct (decide _) as [Hin|]; [|done]. exfalso.
    destruct (subscriptions s !! ToPropertyKey event) as [l|] eqn:E;
      [|by apply elem_of_nil in Hin].
    destruct (Hrs _ _ _ E Hin) as (sub' & Hsub' & Hev'). congruence.
  - intros n Hne. split.
    + by apply lookup_delete_ne.
    + unfold peek. simpl. by rewrite lookup_delete_ne.
  - apply close_all_length.
Qed.

Lemma off_leaves_other_names_witness :
  let s := run init [CallOn (VStr "a") (Some 1); CallOn (VStr "b") (Some 2)] in
  core (exec (off (VStr "a")) s) !! 1 = Some (Subscriber "b" OpNone (Some 2) false).
Proof.
  intros s.
  destruct (off_leaves_other_names (VStr "a") s) as (H & _).
  - by exists [CallOn (VStr "a") (Some 1); CallOn (VStr "b") (Some 2)].
  - exact I.
  - apply H; by vm_compute.
Defined.

Lemma latest_inj_recorded name data s :
  wf s → latest_inj s → latest_inj (recorded name data s).
Proof.
  intros Hwf HI n1 n2 r. unfold recorded.
  destruct (latestEventData s !! name) as [r0|] eqn:E; simpl; [apply HI|].
  destruct (shadowed name s);
    [destruct (String.eqb name "__proto__"); apply HI|]. simpl.
  intros [[<- <-]|[_ H1]]%lookup_insert_Some [[<- Heq]|[_ H2]]%lookup_insert_Some.
  - done.
  - destruct (wf_latest _ Hwf _ _ H2) as [v Hv]. apply lookup_lt_Some in Hv. lia.
  - subst r. destruct (wf_latest _ Hwf _ _ H1) as [v Hv].
    apply lookup_lt_Some in Hv. lia.
  - by apply (HI n1 n2 r).
Qed.

Lemma peek_recorded_other name n data rec s :
  wf s → latest_inj s → n ≠ name → peek name s = Some rec →
  peek name (recorded n data s) = Some rec.
Proof.
  intros Hwf HI Hne. unfold peek, recorded.
  destruct (latestEventData s !! name) as [r|] eqn:Hr; simpl; [|done]. intros Hrec.
  destruct (latestEventData s !! n) as [r0|] eqn:E; simpl.
  - rewrite Hr. simpl. rewrite list_lookup_alter_ne; [done|].
    intros ->. apply Hne. by apply (HI n name r).
  - destruct (shadowed n s).
    + destruct (String.eqb n "__proto__"); simpl; by rewrite Hr.
    + simpl. rewrite lookup_insert_ne, Hr by done. simpl. by apply lookup_app_l_Some.
Qed.

Lemma not_overwrites_permits name c :
  ¬ overwrites name c → permits (fun k => k ≠ name) (fun k => k ≠ name) c.
Proof.
  destruct c; simpl; try done. intros H Heq. apply H. by intros _.
Qed.

(** X8.  The value [latest] replays for a name is the payload of the most
    recent [fire] on that name.  For a name whose lookup yields a record
    of the manager, after [fire(name, v)] the record of [name] holds [v]
    across every call that is neither a [fire] or [trigger] on that name
    nor an [off] of it nor [offAll]: firing other names, subscribing,
    cancelling and running replays do not touch it. *)
Theorem latest_value_is_last_fired (name : string) (v : jsval) (s : state)
    (cs : list call) :
  reachable s → name ≠ "" → yields_record name s →
  Forall (fun c => ¬ overwrites name c) cs →
  peek name (run (exec (fire (VStr name) v) s) cs) = Some (LatestRecord true v).
Proof.
  intros Hreach Hne Hy Hcs.
  assert (reachable (exec (fire (VStr name) v) s)) as Hreach1.
  { destruct Hreach as [cs0 ->]. exists (cs0 ++ [CallFire (VStr name) v]).
    unfold run. by rewrite foldl_app. }
  destruct (reachable_invariants _ Hreach1) as (Hwf1 & _ & _ & Hinj1).
  pose proof (reachable_wf s Hreach) as Hwf.
  assert (peek name (exec (fire (VStr name) v) s) = Some (LatestRecord true v)) as Hpeek.
  { unfold exec. rewrite fire_eq, Subject_next_eq by done.
    rewrite <- (peek_recorded name v s Hwf Hy). reflexivity. }
  apply (run_preserves
           (fun s' => latest_inj s' ∧ peek name s' = Some (LatestRecord true v))
           (fun k => k ≠ name) (fun k => k ≠ name)); try done.
  - intros s0 n s1 _ HI _ [o Ho|Ho Hsh|Ho Hsh]; try done.
    by destruct (String.eqb n "__proto__").
  - intros s0 n data Hwf0 [HI Hp] Hk. split.
    + by apply latest_inj_recorded.
    + by apply peek_recorded_other.
  - intros s0 e x _ HI. by rewrite Subject_next_eq.
  - intros s0 event _ [HI Hp] Hk. unfold exec. rewrite off_eq. split.
    + intros n1 n2 r. simpl.
      intros [_ H1]%lookup_delete_Some [_ H2]%lookup_delete_Some. by apply (HI n1 n2 r).
    + unfold peek in *. simpl. by rewrite lookup_delete_ne.
  - intros s0 _ [HI Hp]. unfold peek, latest_inj.
    by destruct (run_immediate_frame s0) as (_ & _ & _ & _ & -> & ->).
  - eapply Forall_impl; [exact Hcs|]. intros c. apply not_overwrites_permits.
Qed.

Lemma latest_value_is_last_fired_witness :
  peek "e" (run (exec (fire (VStr "e") (VNum 42)) init)
              [CallFire (VStr "f") (VNum 1); CallOn (VStr "e") (Some 7);
               CallOff (VStr "f")])
    = Some (LatestRecord true (VNum 42)).
Proof.
  apply (latest_value_is_last_fired "e" (VNum 42) init).
  - by exists [].
  - discriminate.
  - by right.
  - repeat constructor; simpl; try tauto; try discriminate.
    all: intros H; by specialize (H I).
Defined.

(** X9.  The replay closure reads the record when it runs, not when
    [latest] was called.  For a name that yields a topic and has a
    record: if [fire(name, y)] comes between [latest(name, cb)] and the
    tick that serves the replay, [cb] receives [y] from the [fire] and
    then [y] again from the replay; the value that was stored when
    [latest] was called is never delivered.  (The callbacks [fire]
    invokes are callbacks that return.) *)
Theorem replay_reads_value_at_tick (name : string) (cb r : nat) (y : jsval)
    (s : state) (n : nat) :
  reachable s → name ≠ "" → yields_topic name s →
  latestEventData s !! name = Some r →
  let h := length (core s) in
  let s2 := run s [CallLatest (VStr name) (Some cb); CallFire (VStr name) y] in
  received h s2 = [y] ∧
  received h (run s2 (replicate n Tick)) =
    if n <=? length (immediates s) then [y] else [y; y].
Proof.
  intros Hreach Hne Hy Hlat h s2. pose proof (reachable_wf s Hreach) as Hwf.
  destruct (wf_latest _ Hwf _ _ Hlat) as [v Hv].
  destruct (observe_frame (VStr name) s) as (Hc & _ & Hr & Hl & Hi & Ht).
  set (s1 := exec (latest (VStr name) (Some cb)) s).
  assert (wf s1) as Hwf1 by (by apply wf_latest_call).
  assert (core s1 !! h = Some (Subscriber name OpNone (Some cb) false)) as Hh1.
  { subst s1 h. unfold exec. rewrite latest_eq by done. simpl.
    rewrite Hc. apply lookup_snoc_last. }
  assert (received h s1 = []) as Hrec1.
  { subst s1. unfold exec. rewrite latest_eq by done.
    rewrite <- (fresh_handle_silent s Hwf). by apply received_same. }
  assert (immediates s1 = immediates s ++ [(h, r)]) as Himm1.
  { subst s1 h. unfold exec. rewrite latest_eq by done. simpl.
    unfold replay_task. by rewrite Hi, Hlat, Hv. }
  assert (latestEventData s1 !! name = Some r ∧ records s1 !! r = Some (LatestRecord true v))
    as [Hlat1 Hrec1'].
  { subst s1. unfold exec. rewrite latest_eq by done. simpl. by rewrite Hl, Hr. }
  assert (s2 = exec (fire (VStr name) y) s1) as Hs2 by reflexivity.
  assert (received h s2 = [y]) as Hrec2.
  { pose proof (direct_listener_receives name cb h [y] s1 Hne Hh1) as H.
    by rewrite Hrec1 in H. }
  destruct (recorded_frame name y s1) as (Hc2 & _ & Hi2 & _).
  assert (core s2 !! h = Some (Subscriber name OpNone (Some cb) false)) as Hh2.
  { rewrite Hs2. unfold exec. rewrite fire_eq, Subject_next_eq by done. simpl.
    rewrite Hc2, broadcast_lookup, Hh1. simpl.
    unfold Rx.Subscriber_next. simpl. by rewrite String.eqb_refl. }
  assert (immediates s2 = immediates s ++ [(h, r)]) as Himm2.
  { rewrite Hs2. unfold exec. rewrite fire_eq, Subject_next_eq by done. simpl.
    by rewrite Hi2. }
  assert (records s2 !! r = Some (LatestRecord true y)) as Hr2.
  { rewrite Hs2. unfold exec. rewrite fire_eq, Subject_next_eq by done. simpl.
    unfold recorded. rewrite Hlat1. simpl. by rewrite list_lookup_alter_eq, Hrec1'. }
  split; [done|].
  rewrite (replay_after_queue (immediates s) h r
             (Subscriber name OpNone (Some cb) false) cb (LatestRecord true y) s2 n Himm2);
    try done.
  - rewrite Hrec2. by destruct (n <=? length (immediates s)).
  - intros [h' r'] Hin Heq. simpl in Heq. subst h'.
    apply (wf_immediates _ Hwf) in Hin. subst h. lia.
Qed.

Lemma replay_reads_value_at_tick_witness :
  received 0 (run (run (run init [CallFire (VStr "e") (VNum 1)])
                     [CallLatest (VStr "e") (Some 7); CallFire (VStr "e") (VNum 2)])
                (replicate 1 Tick)) = [VNum 2; VNum 2].
Proof.
  destruct (replay_reads_value_at_tick "e" 7 0 (VNum 2)
              (run init [CallFire (VStr "e") (VNum 1)]) 1) as [_ H].
  - by exists [CallFire (VStr "e") (VNum 1)].
  - discriminate.
  - by right.
  - by vm_compute.
  - exact H.
Defined.

Lemma offAll_closes s n l h sub :
  subscriptions s !! n = Some l → h ∈ l → core s !! h = Some sub →
  core (exec offAll s) !! h = Some (Rx.close sub) ∧ trace (exec offAll s) = trace s.
Proof.
  intros Hl Hin Hh. unfold offAll, exec, bind, gets. simpl.
  set (keys := (map_to_list (subscriptions s)).*1).
  assert (n ∈ keys) as Hn.
  { apply list_elem_of_fmap. exists (n, l). split; [done|]. by apply elem_of_map_to_list. }
  pose proof (forEach_off_closes keys s n l h sub Hn Hl Hin Hh) as H.
  destruct (forEach_off_effect keys s) as (_ & _ & Ht & _). by unfold exec in *.
Qed.

(** X10.  A replay that is still pending when its listener is cancelled is
    dropped.  For a name that yields a topic: after [latest(name, cb)],
    cancelling the returned handle directly, or [off(name)], or [offAll],
    before the event loop reaches the replay, leaves [cb] without any
    delivery, whatever calls and ticks follow. *)
Theorem cancelled_replay_is_dropped (name : string) (cb : nat) (s : state)
    (cs : list call) :
  reachable s → name ≠ "" → yields_topic name s →
  let h := length (core s) in
  let s1 := exec (latest (VStr name) (Some cb)) s in
  (∃ l, subscriptions s1 !! name = Some l ∧ h ∈ l) ∧
  received h (run s1 (CallUnsubscribe h :: cs)) = [] ∧
  received h (run s1 (CallOff (VStr name) :: cs)) = [] ∧
  received h (run s1 (CallOffAll :: cs)) = [].
Proof.
  intros Hreach Hne Hy h s1. pose proof (reachable_wf s Hreach) as Hwf.
  destruct (observe_frame (VStr name) s) as (Hc & Hsub & _ & _ & _ & Ht).
  assert (wf s1) as Hwf1 by (by apply wf_latest_call).
  assert (core s1 !! h = Some (Subscriber name OpNone (Some cb) false)) as Hh1.
  { subst s1 h. unfold exec. rewrite latest_eq by done. simpl.
    rewrite Hc. apply lookup_snoc_last. }
  assert (received h s1 = []) as Hrec1.
  { subst s1. unfold exec. rewrite latest_eq by done.
    rewrite <- (fresh_handle_silent s Hwf). by apply received_same. }
  assert (∃ l, subscriptions s1 !! name = Some l ∧ h ∈ l) as (l & Hl & Hin).
  { subst s1. unfold exec. rewrite latest_eq by done.
    unfold set_subscriptions, set_immediates, set_core. cbn [snd subscriptions].
    rewrite iter_register_lookup. eexists. split; [done|].
    apply elem_of_app. right. apply list_elem_of_here. }
  assert (∀ c, core (step s1 c) !! h = Some (Subscriber name OpNone (Some cb) true) →
               trace (step s1 c) = trace s1 →
               received h (run s1 (c :: cs)) = []) as Hdrop.
  { intros c Hclosed Htrace.
    change (run s1 (c :: cs)) with (run (step s1 c) cs).
    destruct (closed_forever cs (step s1 c) h _ (wf_step s1 c Hwf1) Hclosed eq_refl)
      as [_ ->].
    by rewrite (received_same _ _ _ Htrace). }
  split_and!.
  - by exists l.
  - apply Hdrop; simpl; [|done]. by rewrite list_lookup_alter_eq, Hh1.
  - apply Hdrop; simpl; unfold exec; rewrite off_eq; simpl; [|done].
    rewrite Hl. simpl. by rewrite close_all_lookup, decide_True, Hh1.
  - destruct (offAll_closes s1 name l h _ Hl Hin Hh1) as [H1 H2]. by apply Hdrop.
Qed.

Lemma cancelled_replay_is_dropped_witness :
  received 0 (run (exec (latest (VStr "e") (Some 7))
                     (run init [CallFire (VStr "e") (VNum 42)]))
                (CallUnsubscribe 0 :: [Tick; CallFire (VStr "e") (VNum 1)])) = [].
Proof.
  destruct (cancelled_replay_is_dropped "e" 7 (run init [CallFire (VStr "e") (VNum 42)])
              [Tick; CallFire (VStr "e") (VNum 1)]) as (_ & H & _).
  - by exists [CallFire (VStr "e") (VNum 42)].
  - discriminate.
  - by right.
  - exact H.
Defined.

Lemma forEach_off_spares keys s h :
  (∀ n l, subscriptions s !! n = Some l → h ∉ l) →
  core (exec (forEach (fun event => off (VStr event)) keys) s) !! h = core s !! h.
Proof.
  revert s. induction keys as [|k keys IH]; intros s Hfree; [done|].
  unfold exec. simpl. unfold bind. rewrite off_eq.
  match goal with |- context [forEach _ keys ?s1] =>
    pose proof (IH s1) as H end.
  unfold exec in H. rewrite H.
  - simpl. rewrite close_all_lookup, decide_False; [done|].
    destruct (subscriptions s !! k) as [l|] eqn:E; [by apply (Hfree k)|].
    apply not_elem_of_nil.
  - intros n l. simpl. intros [_ Hn]%lookup_delete_Some. by apply (Hfree n).
Qed.

(** X11.  For a name that is not shadowed: without a callback
    [change(name, comparer)] returns a new stream each time: the object
    is not the cached topic, nothing is subscribed and the registry is
    not touched.  A subscription made on that stream is not registered
    either, so neither [off(name)] nor [offAll] cancels it: it is handed
    the next payload fired on [name] (the callbacks that broadcast
    invokes being callbacks that return). *)
Theorem change_stream_is_unregistered (name : string) (comparer x : jsval)
    (cb : nat) (s : state) :
  reachable s → name ≠ "" → shadowed name s = false →
  truthy comparer && _isNotFunction comparer = false →
  let s1 := exec (change (VStr name) comparer None) s in
  let h := length (core s) in
  let s2 := exec (subscribe (length (heap s1) - 1) (Some cb)) s1 in
  (change (VStr name) comparer None s).1 = Ret (inl (length (heap s1) - 1)) ∧
  (∀ n, observables s1 !! n ≠ Some (length (heap s1) - 1)) ∧
  (∃ o', (change (VStr name) comparer None s1).1 = Ret (inl o') ∧
         o' ≠ length (heap s1) - 1) ∧
  core s1 = core s ∧ subscriptions s1 = subscriptions s ∧
  (subscribe (length (heap s1) - 1) (Some cb) s1).1 = Ret h ∧
  subscriptions s2 = subscriptions s ∧
  received h (run s2 [CallOff (VStr name); CallFire (VStr name) x]) = [x] ∧
  received h (run s2 [CallOffAll; CallFire (VStr name) x]) = [x].
Proof.
  intros Hreach Hne Hsh Hcmp s1 h s2. pose proof (reachable_wf s Hreach) as Hwf.
  assert (yields_topic name s) as Hy by (by right).
  set (op := OpDistinct (fun x _ => _keySelector x) false VUndefined).
  destruct (observe_frame (VStr name) s) as (Hc & Hsub & _ & _ & _ & Ht).
  destruct (change_observable_eq name comparer s Hwf Hne Hy Hcmp) as (o & Hch & Ho).
  destruct (observe_ok name s Hwf Hne Hy) as (t0 & _ & Hcache0 & _).
  assert (wf s1) as Hwf1 by (by apply wf_change).
  assert (s1 = set_heap (fun hp => hp ++ [Observable name op 0])
                 (exec (observe (VStr name)) s)) as Hs1.
  { subst s1. unfold exec at 1. by rewrite Hch. }
  assert (length (heap s1) - 1 = o) as Hlen.
  { rewrite Hs1. simpl. rewrite length_snoc, Ho. lia. }
  rewrite Hlen in *. clearbody s1.
  assert (heap s1 !! o = Some (Observable name op 0)) as Hheap.
  { rewrite Hs1, Ho. simpl. apply lookup_snoc_last. }
  assert (core s1 = core s) as Hc1 by (by rewrite Hs1).
  assert (subscriptions s1 = subscriptions s) as Hsub1 by (by rewrite Hs1).
  assert (yields_topic name s1) as Hy1.
  { left. rewrite Hs1. simpl. by rewrite Hcache0. }
  assert (s2 = set_core (fun c => c ++ [Subscriber name op (Some cb) false]) s1) as Hs2.
  { subst s2. rewrite ?Hlen. unfold exec. rewrite (subscribe_eq _ _ _ _ Hheap).
    by destruct s1. }
  assert (wf s2) as Hwf2 by (rewrite Hs2; by apply wf_push_sub).
  assert (core s2 !! h = Some (Subscriber name op (Some cb) false)) as Hh.
  { rewrite Hs2. simpl. rewrite Hc1. apply lookup_snoc_last. }
  assert (∀ n l, subscriptions s2 !! n = Some l → h ∉ l) as Hfree.
  { intros n l Hl Hin. rewrite Hs2 in Hl. simpl in Hl. rewrite Hsub1 in Hl.
    apply (wf_registry _ Hwf _ _ _ Hl) in Hin. subst h. lia. }
  assert (received h s2 = []) as Hrec.
  { rewrite (received_same h s1 s2) by (by rewrite Hs2).
    subst h. rewrite <- Hc1. by apply fresh_handle_silent. }
  assert (∀ s3, core s3 !! h = Some (Subscriber name op (Some cb) false) →
                received h s3 = [] →
                received h (exec (fire (VStr name) x) s3) = [x]) as Hfire.
  { intros s3 Hh3 Hrec3. unfold exec. rewrite fire_eq, Subject_next_eq by done.
    destruct (recorded_frame name x s3) as (Hc3 & Ht3 & _).
    rewrite (received_append h (recorded name x s3) _
               (Rx.Subject_next_from name x 0 (core (recorded name x s3))).2)
      by reflexivity.
    rewrite (received_same h s3 (recorded name x s3) Ht3), Hrec3.
    rewrite Hc3, broadcast_filter, Hh3.
    unfold Rx.Subscriber_next, Rx.stage_next. simpl. by rewrite String.eqb_refl. }
  split_and!; try done.
  - by rewrite Hch.
  - intros n Hn. destruct (wf_cache _ Hwf1 _ _ Hn) as [w Hw]. rewrite Hheap in Hw.
    discriminate.
  - destruct (change_observable_eq name comparer s1 Hwf1 Hne Hy1 Hcmp)
      as (o' & -> & Ho').
    exists o'. split; [done|]. rewrite Ho'.
    apply lookup_lt_Some in Hheap.
    assert (length (heap s1) ≤ length (heap (exec (observe (VStr name)) s1))); [|lia].
    destruct (observe_observed name s1 Hne) as [t E|E Hsh1|E Hsh1]; simpl.
    + by rewrite length_alter.
    + rewrite length_snoc. lia.
    + by destruct (String.eqb name "__proto__").
  - by rewrite (subscribe_eq _ _ _ _ Hheap), Hc1.
  - by rewrite Hs2.
  - change (run s2 [CallOff (VStr name); CallFire (VStr name) x])
      with (exec (fire (VStr name) x) (exec (off (VStr name)) s2)).
    apply Hfire.
    + unfold exec. rewrite off_eq. simpl. rewrite close_all_lookup, decide_False; [done|].
      destruct (subscriptions s2 !! name) as [l|] eqn:E; [by apply (Hfree name)|].
      apply not_elem_of_nil.
    + rewrite <- Hrec. apply received_same. unfold exec. by rewrite off_eq.
  - change (run s2 [CallOffAll; CallFire (VStr name) x])
      with (exec (fire (VStr name) x) (exec offAll s2)).
    apply Hfire.
    + unfold offAll, exec, bind, gets. simpl.
      pose proof (forEach_off_spares (map_to_list (subscriptions s2)).*1 s2 h Hfree) as H.
      unfold exec in H. by rewrite H.
    + rewrite <- Hrec. apply received_same. unfold offAll, exec, bind, gets. simpl.
      destruct (forEach_off_effect (map_to_list (subscriptions s2)).*1 s2)
        as (_ & _ & H & _). by unfold exec in H.
Qed.

Lemma change_stream_is_unregistered_witness :
  let s1 := exec (change (VStr "e") VUndefined None) init in
  let s2 := exec (subscribe (length (heap s1) - 1) (Some 7)) s1 in
  subscriptions s2 = subscriptions init ∧
  received 0 (run s2 [CallOff (VStr "e"); CallFire (VStr "e") (VNum 5)]) = [VNum 5].
Proof.
  intros s1 s2.
  destruct (change_stream_is_unregistered "e" VUndefined (VNum 5) 7 init)
    as (_ & _ & _ & _ & _ & _ & H1 & H2 & _).
  - by exists [].
  - discriminate.
  - reflexivity.
  - reflexivity.
  - by split.
Defined.

(** An open chain built by [change], fed the payloads fired on its name. *)
Lemma change_chain_receives name cb h hasKey key xs s :
  name ≠ "" →
  core s !! h = Some (Subscriber name
                        (OpDistinct (fun x _ => _keySelector x) hasKey key)
                        (Some cb) false) →
  received h (run s (CallFire (VStr name) <$> xs)) =
  received h s ++ handed_over (if hasKey then Some key else None) xs.
Proof.
  intros Hne. revert s hasKey key. induction xs as [|x xs IH]; intros s hasKey key Hh.
  { simpl. by rewrite app_nil_r. }
  change (run s (CallFire (VStr name) <$> x :: xs))
    with (run (step s (CallFire (VStr name) x)) (CallFire (VStr name) <$> xs)).
  destruct (recorded_frame name x s) as (Hc & Ht & _).
  set (pass := negb (if hasKey then truthy key else false)).
  assert (core (step s (CallFire (VStr name) x)) !! h
          = Some (Subscriber name
                    (OpDistinct (fun x _ => _keySelector x) true (if pass then x else key))
                    (Some cb) false)) as Hh'.
  { simpl. unfold exec. rewrite fire_eq, Subject_next_eq by done. simpl.
    rewrite Hc, broadcast_lookup, Hh. simpl.
    unfold Rx.Subscriber_next, Rx.stage_next, _keySelector. simpl.
    rewrite String.eqb_refl. subst pass.
    by destruct (if hasKey then truthy key else false). }
  assert (received h (step s (CallFire (VStr name) x))
          = received h s ++ (if pass then [x] else [])) as Hr.
  { simpl. unfold exec. rewrite fire_eq, Subject_next_eq by done.
    rewrite (received_append h (recorded name x s) _
               (Rx.Subject_next_from name x 0 (core (recorded name x s))).2)
      by reflexivity.
    rewrite (received_same h s (recorded name x s) Ht).
    rewrite Hc, broadcast_filter, Hh.
    unfold Rx.Subscriber_next, Rx.stage_next, _keySelector. simpl.
    rewrite String.eqb_refl. subst pass.
    by destruct (if hasKey then truthy key else false). }
  rewrite (IH _ _ _ Hh'), Hr, <- app_assoc. f_equal. subst pass.
  destruct hasKey; simpl; [|done]. by destruct (truthy key).
Qed.

Lemma handed_over_after_truthy k xs :
  truthy k = true → handed_over (Some k) xs = [].
Proof.
  intros Hk. induction xs as [|x xs IH]; simpl; [done|]. by rewrite Hk.
Qed.

Lemma handed_over_all_falsy xs :
  Forall (fun x => truthy x = false) xs → handed_over None xs = xs.
Proof.
  assert (∀ last, (∀ k, last = Some k → truthy k = false) →
                  Forall (fun x => truthy x = false) xs → handed_over last xs = xs)
    as H.
  { induction xs as [|x xs IH]; intros last Hlast Hall; [done|].
    apply Forall_cons in Hall as [Hx Hall]. simpl.
    destruct last as [k|].
    - rewrite (Hlast k eq_refl). f_equal. apply IH; [|done]. by intros k' [= <-].
    - f_equal. apply IH; [|done]. by intros k' [= <-]. }
  apply H. by intros k.
Qed.

(** X12.  What a listener subscribed by [change(name, comparer, cb)] on a
    name that is not shadowed receives, whichever comparer is given: the
    first payload fired on [name], and from then on a payload exactly
    when the payload it received last is falsy.  So after a truthy
    payload it receives nothing more, and as long as the payloads are
    falsy it receives every one of them, equal or not.  (The callbacks
    the fires invoke are callbacks that return.) *)
Theorem change_listener_is_handed (name : string) (comparer x : jsval) (cb : nat)
    (xs : list jsval) (s : state) :
  reachable s → name ≠ "" → shadowed name s = false →
  truthy comparer && _isNotFunction comparer = false →
  let h := length (core s) in
  let s1 := exec (change (VStr name) comparer (Some cb)) s in
  received h (run s1 (CallFire (VStr name) <$> xs)) = handed_over None xs ∧
  (truthy x = true →
     received h (run s1 (CallFire (VStr name) <$> x :: xs)) = [x]) ∧
  (Forall (fun x => truthy x = false) xs →
     received h (run s1 (CallFire (VStr name) <$> xs)) = xs).
Proof.
  intros Hreach Hne Hsh Hcmp h s1. pose proof (reachable_wf s Hreach) as Hwf.
  assert (yields_topic name s) as Hy by (by right).
  destruct (observe_frame (VStr name) s) as (Hc & _ & _ & _ & _ & Ht).
  assert (core s1 !! h = Some (Subscriber name
            (OpDistinct (fun x _ => _keySelector x) false VUndefined) (Some cb) false))
    as Hh.
  { subst s1 h. unfold exec. rewrite change_eq by done. simpl.
    rewrite Hc. apply lookup_snoc_last. }
  assert (received h s1 = []) as Hrec.
  { subst s1. unfold exec. rewrite change_eq by done.
    rewrite <- (fresh_handle_silent s Hwf). by apply received_same. }
  assert (∀ ys, received h (run s1 (CallFire (VStr name) <$> ys)) = handed_over None ys)
    as Hall.
  { intros ys. by rewrite (change_chain_receives name cb h false VUndefined ys s1), Hrec. }
  split_and!.
  - apply Hall.
  - intros Hx. rewrite Hall. simpl. by rewrite handed_over_after_truthy.
  - intros Hfalsy. rewrite Hall. by apply handed_over_all_falsy.
Qed.

Lemma change_listener_is_handed_witness :
  received 0 (run (exec (change (VStr "e") VUndefined (Some 7)) init)
                (CallFire (VStr "e") <$> [VNum 0; VNum 0; VNum 1; VNum 2; VNum 0]))
    = [VNum 0; VNum 0; VNum 1].
Proof.
  destruct (change_listener_is_handed "e" VUndefined VNull 7
              [VNum 0; VNum 0; VNum 1; VNum 2; VNum 0] init) as (H & _).
  - by exists [].
  - discriminate.
  - reflexivity.
  - reflexivity.
  - exact H.
Defined.


